(** * The search index of the forum: biostar/forum/search.py

    A shallow embedding of the indexing and query code of [search.py] and
    of the contract of the text-retrieval engine it drives.  The functions
    of [search.py] ([STOP], [add_index], [open_index], [get_schema],
    [delete_existing], [index_posts], [query]) are transcribed from the
    source.  The engine itself (index directory, writer, searcher, parser,
    highlighter) is a library outside the repository; its operations are
    modelled from the logical contract the specification gives for them.

    [timer_func] prints elapsed times and progress counters; it is
    modelled apart, over an explicit clock and console, and the index
    functions are given without their printing.  Of the administrative
    scripts of [main/bin/patch.py], the pruning of notifications
    ([remove_notes], [reduce_notes]) is embedded over a table of notes;
    the index code does not depend on it. *)

From stdpp Require Import base option list strings gmap pretty sorting.
From Stdlib Require Import ZArith Ascii.

Set Default Proof Using "Type".

(** ** Python outcomes *)

(** The exceptions that can leave the functions of [search.py]. *)
Inductive PyExn :=
| AttributeError   (* attribute access on [None] *)
| TypeError        (* a keyword argument passed twice *)
| EmptyIndexError. (* [open_dir]: no index of that name in the directory *)

Inductive result (A : Type) :=
| Ok (a : A)
| Raise (e : PyExn).
Arguments Ok {A} a.
Arguments Raise {A} e.

Global Instance result_bind : MBind result := λ A B k r,
  match r with
  | Ok a => k a
  | Raise e => Raise e
  end.

(** ** Post records ([.models], read only) *)

Module Profile.
Record t := mk {
  name : string;
  uid : string;
  get_absolute_url : string;
}.
End Profile.

Module User.
Record t := mk { profile : Profile.t }.
End User.

Module Post.
(** Modelled from the spec: [Post.DELETED] is declared in [models.py],
    which is not among the sources; it is the status code of a post in
    the "deleted" state.  Only its identity matters below. *)
Definition DELETED : Z := 4.

(** The attributes of a post that [search.py] reads.  [root] is the
    nullable reference to the root post (its uid here); [rank] and
    [lastedit_date] stand for the numbers the code copies through
    ([lastedit_date] for [post.lastedit_date.timestamp()]). *)
Record t := mk {
  uid : string;
  title : string;
  content : string;
  tag_val : string;
  is_toplevel : bool;
  rank : Z;
  lastedit_date : Z;
  get_type_display : string;
  get_absolute_url : string;
  root : option string;
  status : Z;
  author : User.t;
}.
End Post.

(** ** Documents: the keyword arguments of [writer.add_document] *)

Module Doc.
Record t := mk {
  title : string;
  url : string;
  type : string;
  lastedit_date : Z;
  content : string;
  tags : string;
  is_toplevel : bool;
  rank : Z;
  uid : string;
  author : string;
  author_uid : string;
  author_url : string;
}.
End Doc.

(** ** Tokenizer pipeline *)

(** Modelled from the spec: the baseline stop list is the engine's constant
    [STOP_WORDS], imported by [search.py] and not among the sources.  The
    specification describes it as a list of common function words that
    holds none of "there", "where", "who"; the words are those the engine
    ships. *)
Definition STOP_WORDS : list string :=
  ["a"; "an"; "and"; "are"; "as"; "at"; "be"; "by"; "can"; "for"; "from";
   "have"; "if"; "in"; "is"; "it"; "may"; "not"; "of"; "on"; "or"; "tbd";
   "that"; "the"; "this"; "to"; "us"; "we"; "when"; "will"; "with"; "yet";
   "you"; "your"].

(** [STOP = ['there', 'where', 'who'] + [w for w in STOP_WORDS]], then
    [STOP = set(STOP)]; the comprehension copies the baseline. *)
Definition STOP_from (baseline : list string) : gset string :=
  list_to_set (["there"; "where"; "who"] ++ baseline).

Definition STOP : gset string := STOP_from STOP_WORDS.

(** Modelled from the spec: [SpaceSeparatedTokenizer] splits the text on
    space-like separators (space, tab, carriage return, line feed), with
    no punctuation-aware segmentation; empty or whitespace-only input
    gives no term. *)
Definition is_separator (c : ascii) : bool :=
  match c with
  | " " | "009" | "010" | "013" => true
  | _ => false
  end%char.

Fixpoint tokens_go (cur : string) (s : string) : list string :=
  match s with
  | EmptyString => if decide (cur = "") then [] else [String.rev cur]
  | String c s' =>
      if is_separator c
      then (if decide (cur = "") then [] else [String.rev cur]) ++ tokens_go "" s'
      else tokens_go (String c cur) s'
  end.

Definition SpaceSeparatedTokenizer (text : string) : list string :=
  tokens_go "" text.

(** Modelled from the spec: [StopFilter] removes every term present in the
    stop list. *)
Definition StopFilter (stoplist : gset string) (terms : list string) : list string :=
  filter (λ t, t ∉ stoplist) terms.

(** [tokenizer = SpaceSeparatedTokenizer() | StopFilter(stoplist=STOP)],
    the first line of [get_schema]. *)
Definition tokenizer (text : string) : list string :=
  StopFilter STOP (SpaceSeparatedTokenizer text).

(** ** Schema *)

(** The field types [get_schema] uses, with the flags it passes. *)
Inductive FieldType :=
| NGRAMWORDS (stored : bool) (tokenizer : string → list string)
| ID (stored : bool)
| KEYWORD (stored : bool)
| BOOLEAN (stored : bool)
| NUMERIC (stored sortable : bool)
| TEXT (stored : bool).

Abbreviation Schema := (gmap string FieldType).

(** [get_schema()]. *)
Definition get_schema : Schema :=
  list_to_map
    [("title", NGRAMWORDS true tokenizer);
     ("url", ID true);
     ("content", NGRAMWORDS true tokenizer);
     ("tags", KEYWORD true);
     ("is_toplevel", BOOLEAN true);
     ("lastedit_date", NUMERIC true false);
     ("author_uid", ID true);
     ("rank", NUMERIC true true);
     ("author", TEXT true);
     ("author_url", ID true);
     ("uid", ID true);
     ("type", TEXT true)].

(** Modelled from the spec: the terms a field type makes of a text, when
    a document is indexed and when a query string is parsed against the
    field.  Tokenized fields run their tokenizer (the engine's own
    pipeline with the baseline stop list where [get_schema] passes none);
    identifier fields match on the whole value only; keyword lists are
    split on whitespace; boolean and numeric fields carry no text. *)
Definition analyze (ft : FieldType) (text : string) : list string :=
  match ft with
  | NGRAMWORDS _ tok => tok text
  | ID _ => [text]
  | KEYWORD _ => SpaceSeparatedTokenizer text
  | TEXT _ => StopFilter (list_to_set STOP_WORDS) (SpaceSeparatedTokenizer text)
  | BOOLEAN _ | NUMERIC _ _ => []
  end.

(** The text a document holds in a field ([None] for the boolean and
    numeric fields and for names that are no field). *)
Definition field_text (d : Doc.t) (fieldname : string) : option string :=
  if decide (fieldname = "title") then Some (Doc.title d)
  else if decide (fieldname = "url") then Some (Doc.url d)
  else if decide (fieldname = "type") then Some (Doc.type d)
  else if decide (fieldname = "content") then Some (Doc.content d)
  else if decide (fieldname = "tags") then Some (Doc.tags d)
  else if decide (fieldname = "uid") then Some (Doc.uid d)
  else if decide (fieldname = "author") then Some (Doc.author d)
  else if decide (fieldname = "author_uid") then Some (Doc.author_uid d)
  else if decide (fieldname = "author_url") then Some (Doc.author_url d)
  else None.

(** The terms under which a document is posted in a field. *)
Definition field_terms (schema : Schema) (d : Doc.t) (fieldname : string) : list string :=
  match schema !! fieldname, field_text d fieldname with
  | Some ft, Some text => analyze ft text
  | _, _ => []
  end.

(** ** The index: committed generation, storage, handles *)

(** Modelled from the spec: the committed state of an index is its schema
    and its live documents; a document's number is its position. *)
Record TOC := mkTOC {
  toc_schema : Schema;
  toc_docs : list Doc.t;
}.

(** Modelled from the spec: the durable store maps a directory and an
    index name to the index committed there. *)
Abbreviation Storage := (gmap (string * string) TOC).

(** An open index: where it lives and the generation read at opening. *)
Record Index := mkIndex {
  ix_dirname : string;
  ix_indexname : string;
  ix_toc : TOC;
}.

Definition schema (ix : Index) : Schema := toc_schema (ix_toc ix).

(** Modelled from the spec: an index exists at a location when one was
    committed there. *)
Definition exists_in (fs : Storage) (dirname indexname : string) : bool :=
  bool_decide (is_Some (fs !! (dirname, indexname))).

(** Modelled from the spec: opening fails when no index can be read at the
    location. *)
Definition open_dir (fs : Storage) (dirname indexname : string) : result Index :=
  match fs !! (dirname, indexname) with
  | Some toc => Ok (mkIndex dirname indexname toc)
  | None => Raise EmptyIndexError
  end.

(** Modelled from the spec: creating an index writes a fresh, empty
    generation bound to the schema, replacing what was at the location. *)
Definition create_in (fs : Storage) (dirname : string) (sch : Schema)
    (indexname : string) : Storage * Index :=
  let toc := mkTOC sch [] in
  (<[(dirname, indexname) := toc]> fs, mkIndex dirname indexname toc).

(** ** Writer transactions *)

(** Modelled from the spec: a writer accumulates deletions (document
    numbers of the generation it was opened on) and additions; nothing is
    visible before commit. *)
Record Writer := mkWriter {
  w_index : Index;
  w_deleted : gset nat;
  w_added : list Doc.t;
}.

Definition writer (ix : Index) : Writer := mkWriter ix ∅ [].

Definition add_document (w : Writer) (d : Doc.t) : Writer :=
  mkWriter (w_index w) (w_deleted w) (w_added w ++ [d]).

Definition delete_document (w : Writer) (docnum : nat) : Writer :=
  mkWriter (w_index w) ({[docnum]} ∪ w_deleted w) (w_added w).

(** Documents paired with their numbers, counting from [n]. *)
Fixpoint enumerate (n : nat) (docs : list Doc.t) : list (nat * Doc.t) :=
  match docs with
  | [] => []
  | d :: docs' => (n, d) :: enumerate (S n) docs'
  end.

(** The documents of the opened generation the writer has not deleted. *)
Definition surviving (deleted : gset nat) (docs : list Doc.t) : list Doc.t :=
  (filter (λ nd, nd.1 ∉ deleted) (enumerate 0 docs)).*2.

(** Modelled from the spec: commit makes all deletions and additions of
    the transaction visible at once as the next generation. *)
Definition commit (fs : Storage) (w : Writer) : Storage :=
  let ix := w_index w in
  <[(ix_dirname ix, ix_indexname ix) :=
      mkTOC (schema ix) (surviving (w_deleted w) (toc_docs (ix_toc ix)) ++ w_added w)]> fs.

(** ** Searching *)

(** Modelled from the spec: a query plan is an OR-combination of terms
    looked up in fields; a document matches when it is posted under one
    of them. *)
Abbreviation Query := (list (string * string)).

Definition matches (sch : Schema) (q : Query) (d : Doc.t) : bool :=
  bool_decide (Exists (λ ft, ft.2 ∈ field_terms sch d ft.1) q).

(** Modelled from the spec: [MultifieldParser(fieldnames, schema).parse(q)]
    runs the query string through each named field's analysis and ORs the
    resulting terms across fields.  [search.py] passes no [group] to the
    parser ([OrGroup] is imported and not used), so how several words of
    one query string combine is the engine's default, which the
    specification leaves open; the properties below use plans of one term
    or of none, or hold of every plan. *)
Definition parse (fieldnames : list string) (sch : Schema) (q : string) : Query :=
  fieldnames ≫= λ f,
    match sch !! f with
    | Some ft => (λ t, (f, t)) <$> analyze ft q
    | None => []
    end.

(** A searcher reads the generation the index handle was opened on. *)
Definition searcher (ix : Index) : TOC := ix_toc ix.

(** A hit: the number of a matching live document and the document. *)
Abbreviation Hit := (nat * Doc.t)%type.

(** Modelled from the spec: the hits of a plan are the live documents that
    match; relevance scores are not modelled and the hits are listed by
    document number. *)
Definition hits (s : TOC) (q : Query) : list Hit :=
  filter (λ nd, matches (toc_schema s) q nd.2 = true) (enumerate 0 (toc_docs s)).

(** Presentation parameters of a result set's highlighter, with the
    engine's defaults. *)
Record Fragmenter := mkFragmenter {
  maxchars : nat;
  surround : nat;
}.

Definition default_fragmenter : Fragmenter := mkFragmenter 200 20.

Record Results := mkResults {
  items : list Hit;
  fragmenter : Fragmenter;
}.

Definition is_empty (r : Results) : bool :=
  bool_decide (items r = []).

(** Modelled from the spec: a search retrieves up to [limit] ranked
    documents.  [options] is what the optional execution parameters
    (sorting, filtering and the like) do to the hits; without any it is
    the identity.  [searcher.search(q)] without a limit takes the engine's
    default of 10. *)
Definition search (s : TOC) (q : Query) (limit : nat)
    (options : list Hit → list Hit) : Results :=
  mkResults (take limit (options (hits s q))) default_fragmenter.

Definition default_limit : nat := 10.

(** Modelled from the spec: the highlighter cuts an excerpt from a stored
    text around a match span [startchar, endchar): it reaches [surround]
    characters before and after the span, within the text, and holds at
    most [maxchars] characters. *)
Record Fragment := mkFragment {
  frag_start : nat;
  frag_text : string;
}.

Definition fragment (f : Fragmenter) (text : string) (startchar endchar : nat) : Fragment :=
  let first := startchar - surround f in
  let last := (endchar + surround f) `min` String.length text in
  mkFragment first (String.substring first (maxchars f `min` (last - first)) text).

Definition frag_end (fr : Fragment) : nat :=
  frag_start fr + String.length (frag_text fr).

(** The excerpt of a hit of a result set in one of its stored text fields. *)
Definition highlights (r : Results) (d : Doc.t) (fieldname : string)
    (startchar endchar : nat) : option Fragment :=
  (λ text, fragment (fragmenter r) text startchar endchar) <$> field_text d fieldname.

(** * The functions of [search.py] *)

(** The keyword arguments [add_index] hands to [writer.add_document]. *)
Definition document (post : Post.t) : Doc.t :=
  let title := if negb (Post.is_toplevel post) then "" else Post.title post in
  {| Doc.title := title;
     Doc.url := Post.get_absolute_url post;
     Doc.type := Post.get_type_display post;
     Doc.lastedit_date := Post.lastedit_date post;
     Doc.content := Post.content post;
     Doc.tags := Post.tag_val post;
     Doc.is_toplevel := Post.is_toplevel post;
     Doc.rank := Post.rank post;
     Doc.uid := Post.uid post;
     Doc.author := Profile.name (User.profile (Post.author post));
     Doc.author_uid := Profile.uid (User.profile (Post.author post));
     Doc.author_url := Profile.get_absolute_url (User.profile (Post.author post)) |}.

(** [add_index(post, writer)]. *)
Definition add_index (post : Post.t) (w : Writer) : Writer :=
  add_document w (document post).

(** [open_index(index_dir, index_name)]: any exception of [open_dir] is
    logged and turned into [None]. *)
Definition open_index (fs : Storage) (index_dir index_name : string) : option Index :=
  match open_dir fs index_dir index_name with
  | Ok ix => Some ix
  | Raise exc => None
  end.

(** [delete_existing(ix, writer, uid)]. *)
Definition delete_existing (ix : Index) (w : Writer) (uid : string) : Writer :=
  let searcher := searcher ix in
  let parser := parse ["uid"] (schema ix) uid in
  let indexed := search searcher parser default_limit id in
  if negb (is_empty indexed) then
    (* docnum = list(indexed.items())[0][0] *)
    match items indexed with
    | (docnum, _) :: _ => delete_document w docnum
    | [] => w
    end
  else w.

(** [posts.exclude(status=Post.DELETED)]. *)
Definition exclude_deleted (posts : list Post.t) : list Post.t :=
  filter (λ post, Post.status post ≠ Post.DELETED) posts.

(** The [for i, post in stream] loop of [index_posts]; the progress
    counter only prints. *)
Fixpoint index_loop (updating : bool) (ix : Index) (w : Writer)
    (posts : list Post.t) : Writer :=
  match posts with
  | [] => w
  | post :: posts' =>
      match Post.root post with
      | None => index_loop updating ix w posts'
      | Some _ =>
          let w := if updating then delete_existing ix w (Post.uid post) else w in
          let w := add_index post w in
          index_loop updating ix w posts'
      end
  end.

(** [index_posts(posts, create_new, index_dir, index_name)]; the result is
    the storage after the run. *)
Definition index_posts (fs : Storage) (posts : list Post.t) (create_new : bool)
    (index_dir index_name : string) : result Storage :=
  let index_exists := exists_in fs index_dir index_name in
  let '(updating, fs, ix) :=
    if index_exists && negb create_new
    then (true, fs, open_index fs index_dir index_name)
    else
      let '(fs', ix) := create_in fs index_dir get_schema index_name in
      (false, fs', Some ix) in
  let posts := exclude_deleted posts in
  match ix with
  | None => Raise AttributeError
  | Some ix =>
      let w := writer ix in
      let w := index_loop updating ix w posts in
      Ok (commit fs w)
  end.

(** Values of keyword arguments. *)
Inductive PyValue :=
| PyNone
| PyBool (b : bool)
| PyInt (z : Z)
| PyStr (s : string).

Abbreviation Kwargs := (gmap string PyValue).

Section QueryEntryPoint.
(** [settings.SIMILAR_FEED_COUNT], the system-wide result count. *)
Context (SIMILAR_FEED_COUNT : nat).
(** The engine's reading of the keyword arguments of a search other
    than [limit]: [None] when it rejects them. *)
Context (collector : Kwargs → option (list Hit → list Hit)).

(** [query(q, fields, index_dir, index_name, **kwargs)].  A [limit]
    among [kwargs] meets the [limit=] of the call to [searcher.search]. *)
Definition query (fs : Storage) (q : string) (fields : list string)
    (index_dir index_name : string) (kwargs : Kwargs) : result Results :=
  match open_index fs index_dir index_name with
  | None => Raise AttributeError
  | Some ix =>
      let searcher := searcher ix in
      let parser := parse fields (schema ix) q in
      if decide (is_Some (kwargs !! "limit")) then Raise TypeError else
      match collector kwargs with
      | None => Raise TypeError
      | Some options =>
          let results := search searcher parser SIMILAR_FEED_COUNT options in
          let results := mkResults (items results)
                           (mkFragmenter 300 (surround (fragmenter results))) in
          let results := mkResults (items results)
                           (mkFragmenter (maxchars (fragmenter results)) 50) in
          Ok results
      end
  end.
End QueryEntryPoint.

(** * Vocabulary of the properties *)

(** ** Counting documents by uid *)

(** The number of documents carrying a uid. *)
Definition uid_count (u : string) (docs : list Doc.t) : nat :=
  length (filter (λ d, Doc.uid d = u) docs).

(** At most one live document per uid. *)
Definition unique_uids (docs : list Doc.t) : Prop :=
  ∀ u, uid_count u docs ≤ 1.

(** The posts of a batch that reach [add_index]: not deleted, with a root. *)
Definition indexed_posts (posts : list Post.t) : list Post.t :=
  filter (λ post, is_Some (Post.root post)) (exclude_deleted posts).

(** The uid lookup of [delete_existing] on a generation. *)
Definition uid_hits (s : TOC) (uid : string) : list Hit :=
  hits s (parse ["uid"] (toc_schema s) uid).

(** The document number [delete_existing] deletes for a uid, if any. *)
Definition stale (ix : Index) (uid : string) : gset nat :=
  match uid_hits (searcher ix) uid with
  | [] => ∅
  | (docnum, _) :: _ => {[docnum]}
  end.

(** The posts of a list with a root. *)
Definition rooted (posts : list Post.t) : list Post.t :=
  filter (λ post, is_Some (Post.root post)) posts.

(** The documents an update run deletes: one per uid of an indexed post. *)
Definition stale_docnums (ix : Index) (uids : list string) : gset nat :=
  ⋃ (stale ix <$> uids).

(** The number of posts of a list carrying a uid. *)
Definition post_count (u : string) (posts : list Post.t) : nat :=
  length (filter (λ post, Post.uid post = u) posts).

(** The number of documents with a uid committed at a location (none when
    there is no index). *)
Definition indexed_count (u : string) (fs : Storage) (dir name : string) : nat :=
  match fs !! (dir, name) with
  | Some toc => uid_count u (toc_docs toc)
  | None => 0
  end.

(** ** Sample data *)

Definition ann : User.t :=
  User.mk (Profile.mk "Ann" "u1" "/accounts/profile/u1/").

(** A live top-level post with uid "p1". *)
Definition question (content : string) : Post.t :=
  {| Post.uid := "p1"; Post.title := "Aligning reads"; Post.content := content;
     Post.tag_val := "alignment"; Post.is_toplevel := true; Post.rank := 0;
     Post.lastedit_date := 0; Post.get_type_display := "Question";
     Post.get_absolute_url := "/p/p1/"; Post.root := Some "p1";
     Post.status := 1; Post.author := ann |}.

(** A comment under it, carrying a title of its own in the store. *)
Definition comment : Post.t :=
  {| Post.uid := "c1"; Post.title := "bowtie"; Post.content := "try bowtie";
     Post.tag_val := ""; Post.is_toplevel := false; Post.rank := 0;
     Post.lastedit_date := 0; Post.get_type_display := "Comment";
     Post.get_absolute_url := "/p/p1/#c1"; Post.root := Some "p1";
     Post.status := 1; Post.author := ann |}.

Definition deleted (post : Post.t) : Post.t :=
  {| Post.uid := Post.uid post; Post.title := Post.title post;
     Post.content := Post.content post; Post.tag_val := Post.tag_val post;
     Post.is_toplevel := Post.is_toplevel post; Post.rank := Post.rank post;
     Post.lastedit_date := Post.lastedit_date post;
     Post.get_type_display := Post.get_type_display post;
     Post.get_absolute_url := Post.get_absolute_url post;
     Post.root := Post.root post; Post.status := Post.DELETED;
     Post.author := Post.author post |}.

Definition rootless (post : Post.t) : Post.t :=
  {| Post.uid := Post.uid post; Post.title := Post.title post;
     Post.content := Post.content post; Post.tag_val := Post.tag_val post;
     Post.is_toplevel := Post.is_toplevel post; Post.rank := Post.rank post;
     Post.lastedit_date := Post.lastedit_date post;
     Post.get_type_display := Post.get_type_display post;
     Post.get_absolute_url := Post.get_absolute_url post;
     Post.root := None; Post.status := Post.status post;
     Post.author := Post.author post |}.

(** A storage with one index, "main" in directory "index", holding the
    given documents under the schema of [get_schema]. *)
Definition index_of (docs : list Doc.t) : Storage :=
  {[ ("index", "main") := mkTOC get_schema docs ]}.

(** The documents committed at a location after a run. *)
Definition docs_after (r : result Storage) (dir name : string) : option (list Doc.t) :=
  match r with
  | Ok fs => toc_docs <$> fs !! (dir, name)
  | Raise _ => None
  end.

(** Several runs of [index_posts], one committed batch after the other. *)
Fixpoint index_runs (fs : Storage) (runs : list (list Post.t * bool))
    (dir name : string) : result Storage :=
  match runs with
  | [] => Ok fs
  | (posts, create_new) :: runs' =>
      fs' ← index_posts fs posts create_new dir name;
      index_runs fs' runs' dir name
  end.

(** A reading of the keyword arguments that accepts every option and
    leaves the hits as they are. *)
Definition plain_collector : Kwargs → option (list Hit → list Hit) :=
  λ _, Some id.

(** ** Position-free view of an update run *)

(** The document number at the head of a list of hits, as a set. *)
Definition first_docnum (hs : list Hit) : gset nat :=
  match hs with
  | [] => ∅
  | (docnum, _) :: _ => {[docnum]}
  end.

(** The documents left when, for every uid of the set, the first document
    carrying it is taken out. *)
Fixpoint drop_first_of (uids : gset string) (docs : list Doc.t) : list Doc.t :=
  match docs with
  | [] => []
  | d :: docs' =>
      if decide (Doc.uid d ∈ uids)
      then drop_first_of (uids ∖ {[Doc.uid d]}) docs'
      else d :: drop_first_of uids docs'
  end.

(** * Progress reporting: [timer_func] *)

(** Exceptions of the code below that the index code above never meets. *)
Inductive PyError :=
| ZeroDivisionError   (* [index % step] with [step == 0] *)
| IndexError.         (* a queryset index past its last row *)

(** A line printed by [elapsed]: [print(f"{msg} in {sec} seconds")] with
    [sec = round(now - last, 1)].  The line keeps the two clock readings;
    their rounded difference is a floating-point number. *)
Record Line (T : Type) := mkLine {
  line_msg : string;
  line_last : T;
  line_now : T;
}.
Arguments mkLine {T} _ _ _.
Arguments line_msg {T} _.
Arguments line_last {T} _.
Arguments line_now {T} _.

(** The console and the clock: how many times [time.time()] was read and
    the lines printed so far, oldest first. *)
Record World (T : Type) := mkWorld {
  ticks : nat;
  printed : list (Line T);
}.
Arguments mkWorld {T} _ _.
Arguments ticks {T} _.
Arguments printed {T} _.

Section Timer.
(** [clock n] is what the [n]-th call of [time.time()] returns. *)
Context {T : Type} (clock : nat → T).

Definition time (w : World T) : T * World T :=
  (clock (ticks w), mkWorld (S (ticks w)) (printed w)).

Definition print (line : Line T) (w : World T) : World T :=
  mkWorld (ticks w) (printed w ++ [line]).

(** [timer_func()]: [last = time.time()]; the two closures it returns
    share [last], which is what is handed on here. *)
Definition timer_func (w : World T) : T * World T := time w.

(** [elapsed(msg)], with the [last] it reads and the [last] it leaves. *)
Definition elapsed (last : T) (msg : string) (w : World T) : T * World T :=
  let '(now, w) := time w in
  (now, print (mkLine msg last now) w).

(** [progress(index, step, msg)]. *)
Definition progress (last : T) (index step : Z) (msg : string) (w : World T)
    : PyError + T * World T :=
  if decide (step = 0)%Z then inl ZeroDivisionError
  else if decide (index `mod` step = 0)%Z
       then inr (elapsed last ("... " +:+ pretty index +:+ " " +:+ msg) w)
       else inr (last, w).

(** The calls [progress(i, msg="posts indexed")] of the loop of
    [index_posts], for [i] counting the posts from [i]; [step] is the
    default 500. *)
Fixpoint progress_loop (last : T) (i : Z) (posts : list Post.t) (w : World T)
    : PyError + T * World T :=
  match posts with
  | [] => inr (last, w)
  | _ :: posts' =>
      match progress last i 500 "posts indexed" w with
      | inl e => inl e
      | inr (last, w) => progress_loop last (i + 1) posts' w
      end
  end.

(** What a run of [index_posts] that reaches its loop does to the console:
    [timer_func()], the loop over the posts that are not deleted,
    [timer_func()] again, and after the commit
    [elapsed(f"Created/updated index for {len(posts)}")]. *)
Definition index_posts_prints (posts : list Post.t) (w : World T)
    : PyError + World T :=
  let posts := exclude_deleted posts in
  let '(last, w) := timer_func w in
  match progress_loop last 1 posts w with
  | inl e => inl e
  | inr (_, w) =>
      let '(last, w) := timer_func w in
      let '(_, w) :=
        elapsed last ("Created/updated index for " +:+ pretty (length posts)) w in
      inr w
  end.
End Timer.

(** The progress lines for the first [j] multiples of 500, printed from
    clock reading [t0] on: each starts where the one before ended. *)
Definition progress_lines {T} (clock : nat → T) (t0 j : nat) : list (Line T) :=
  (λ k, mkLine ("... " +:+ pretty (500 * (Z.of_nat k + 1))%Z +:+ " posts indexed")
          (clock (t0 + k)) (clock (t0 + k + 1))) <$> seq 0 j.

(** * Notification pruning: [main/bin/patch.py] *)

(** The rows of [models.Note] as [patch.py] queries them: the primary key
    and the primary keys of the user notified and of the sender. *)
Module Note.
Record t := mk {
  id : Z;
  target : Z;
  sender : Z;
}.
End Note.

(** [filter(target=target).exclude(sender=target)]: the notes a user
    received from others. *)
Definition received (target : Z) (note : Note.t) : Prop :=
  Note.target note = target ∧ Note.sender note ≠ target.

Global Instance received_dec target note : Decision (received target note).
Proof. unfold received. apply _. Defined.

(** [order_by('-id')]. *)
Definition newest_first (a b : Note.t) : Prop := (Note.id b ≤ Note.id a)%Z.

Global Instance newest_first_dec a b : Decision (newest_first a b).
Proof. unfold newest_first. apply _. Defined.

(** [remove_notes(target, maxcount)] on the table of notes: the row at
    index [maxcount] of the user's received notes, newest first
    ([IndexError] when there is none), then the deletion of the received
    notes with a smaller id.  [maxcount] is not negative.  The function
    ends by printing the number of notes left for the user. *)
Definition remove_notes (target : Z) (maxcount : nat) (notes : list Note.t)
    : PyError + list Note.t :=
  match merge_sort newest_first (filter (received target) notes) !! maxcount with
  | None => inl IndexError
  | Some last_valid =>
      inr (filter
             (λ note, ¬ (Note.target note = target ∧
                         (Note.id note < Note.id last_valid)%Z ∧
                         Note.sender note ≠ target))
             notes)
  end.

(** [reduce_notes(maxcount)], for the users of [User.objects.all()]. *)
Fixpoint reduce_notes (users : list Z) (maxcount : nat) (notes : list Note.t)
    : PyError + list Note.t :=
  match users with
  | [] => inr notes
  | user :: users' =>
      let note_count := length (filter (received user) notes) in
      if decide (2 * maxcount < note_count)
      then match remove_notes user maxcount notes with
           | inl e => inl e
           | inr notes' => reduce_notes users' maxcount notes'
           end
      else reduce_notes users' maxcount notes
  end.

(** Sample notes: user 7 received notes 1 to 4 from user 9 and wrote note
    5 to themselves; user 8 received note 6. *)
Definition sample_notes : list Note.t :=
  [Note.mk 3 7 9; Note.mk 1 7 9; Note.mk 5 7 7; Note.mk 6 8 9;
   Note.mk 4 7 9; Note.mk 2 7 9].

(** * Properties *)

(** ** Enumerated documents *)

Section Enumerate.
Implicit Types (docs : list Doc.t) (n i : nat) (d : Doc.t).

Lemma enumerate_fst n docs : (enumerate n docs).*1 = seq n (length docs).
Proof.
  revert n. induction docs as [|d docs IH]; intros n; simpl; [done|].
  by rewrite IH.
Qed.

Lemma enumerate_snd n docs : (enumerate n docs).*2 = docs.
Proof.
  revert n. induction docs as [|d docs IH]; intros n; simpl; [done|].
  by rewrite IH.
Qed.

Lemma enumerate_NoDup n docs : NoDup (enumerate n docs).*1.
Proof. rewrite enumerate_fst. apply NoDup_seq. Qed.

Lemma elem_of_enumerate n docs i d :
  (i, d) ∈ enumerate n docs ↔ n ≤ i ∧ docs !! (i - n) = Some d.
Proof.
  revert n. induction docs as [|d' docs IH]; intros n; simpl.
  - rewrite elem_of_nil, lookup_nil. split; [done|]. by intros [_ ?].
  - rewrite elem_of_cons, IH. split.
    + intros [Heq|[Hle Hl]]; [injection Heq as -> ->|].
      * split; [lia|]. by rewrite Nat.sub_diag.
      * split; [lia|]. by replace (i - n) with (S (i - S n)) by lia.
    + intros [Hle Hl]. destruct (decide (i = n)) as [->|Hne].
      * left. rewrite Nat.sub_diag in Hl. by simplify_eq/=.
      * right. split; [lia|].
        by replace (i - n) with (S (i - S n)) in Hl by lia.
Qed.

(** Two entries of an enumeration with one number are one entry. *)
Lemma enumerate_inj n docs i d1 d2 :
  (i, d1) ∈ enumerate n docs → (i, d2) ∈ enumerate n docs → d1 = d2.
Proof.
  rewrite !elem_of_enumerate. intros [_ H1] [_ H2]. congruence.
Qed.

End Enumerate.

Lemma filter_all {A} (P : A → Prop) `{!∀ x, Decision (P x)} (l : list A) :
  Forall P l → filter P l = l.
Proof.
  induction 1 as [|x l HP _ IH]; [done|].
  by rewrite filter_cons_True, IH.
Qed.

Lemma filter_none {A} (P : A → Prop) `{!∀ x, Decision (P x)} (l : list A) :
  Forall (λ x, ¬ P x) l → filter P l = [].
Proof.
  induction 1 as [|x l HP _ IH]; [done|].
  by rewrite filter_cons_False, IH.
Qed.

Lemma surviving_none docs : surviving ∅ docs = docs.
Proof.
  unfold surviving. rewrite filter_all; [apply enumerate_snd|].
  apply Forall_forall. intros nd _. set_solver.
Qed.

(** ** The uid lookup *)

Section UidLookup.
Context (sch : Schema) (stored : bool).
Hypothesis uid_is_ID : sch !! "uid" = Some (ID stored).

Lemma parse_uid u : parse ["uid"] sch u = [("uid", u)].
Proof using uid_is_ID. unfold parse. simpl. by rewrite uid_is_ID. Qed.

Lemma matches_uid u d : matches sch [("uid", u)] d = true ↔ Doc.uid d = u.
Proof using uid_is_ID.
  unfold matches. rewrite bool_decide_eq_true, Exists_cons, Exists_nil.
  unfold field_terms. simpl. rewrite uid_is_ID. simpl.
  rewrite list_elem_of_singleton. split; [by intros [->|[]]|by left].
Qed.
End UidLookup.

Lemma uid_hits_filter s stored u :
  toc_schema s !! "uid" = Some (ID stored) →
  uid_hits s u = filter (λ nd, Doc.uid nd.2 = u) (enumerate 0 (toc_docs s)).
Proof.
  intros Hs. unfold uid_hits, hits. rewrite (parse_uid _ _ Hs).
  apply list_filter_iff. intros nd. by apply matches_uid with stored.
Qed.

(** Hits are entries of the searched generation, each number once. *)
Lemma hits_enumerate s q nd : nd ∈ hits s q → nd ∈ enumerate 0 (toc_docs s).
Proof. unfold hits. rewrite list_elem_of_filter. tauto. Qed.

Lemma hits_NoDup s q : NoDup (hits s q).*1.
Proof.
  unfold hits. eapply sublist_NoDup; [apply (enumerate_NoDup 0 (toc_docs s))|].
  apply fmap_sublist, sublist_filter.
Qed.

(** ** What [delete_existing] and the loop do to a writer *)

Lemma delete_existing_eq ix w uid :
  delete_existing ix w uid =
    mkWriter (w_index w) (stale ix uid ∪ w_deleted w) (w_added w).
Proof.
  unfold delete_existing, stale, uid_hits, is_empty, search, items.
  change (toc_schema (searcher ix)) with (schema ix).
  destruct (hits (searcher ix) (parse ["uid"] (schema ix) uid)) as [|[n d] hs].
  - destruct w. cbn. by rewrite (left_id_L ∅ (∪)).
  - done.
Qed.

Lemma index_loop_eq updating ix w posts :
  index_loop updating ix w posts =
    mkWriter (w_index w)
      ((if updating then ⋃ ((λ post, stale ix (Post.uid post)) <$> rooted posts) else ∅)
         ∪ w_deleted w)
      (w_added w ++ (document <$> rooted posts)).
Proof.
  revert w. induction posts as [|post posts IH]; intros w; simpl.
  - destruct w, updating; simpl; by rewrite (left_id_L ∅ (∪)), app_nil_r.
  - unfold rooted. rewrite filter_cons. destruct (Post.root post) as [r|] eqn:Hroot.
    + rewrite decide_True by eauto. rewrite IH. unfold add_index, add_document.
      destruct updating; simpl.
      * rewrite delete_existing_eq. simpl.
        by rewrite <- app_assoc, (assoc_L (∪)), (comm_L (∪) (stale _ _)).
      * by rewrite <- app_assoc.
    + rewrite decide_False by (by intros [? ?]). apply IH.
Qed.

(** ** One run of [index_posts], as a function of the committed index *)

Lemma filter_fmap {A B} (f : A → B) (P : B → Prop) `{!∀ y, Decision (P y)}
    (l : list A) :
  filter P (f <$> l) = f <$> filter (λ x, P (f x)) l.
Proof.
  induction l as [|x l IH]; [done|].
  rewrite fmap_cons, !filter_cons. case_decide; by rewrite ?fmap_cons, IH.
Qed.

Lemma filter_swap {A} (P Q : A → Prop) `{!∀ x, Decision (P x), !∀ x, Decision (Q x)}
    (l : list A) :
  filter P (filter Q l) = filter Q (filter P l).
Proof. rewrite !list_filter_filter. apply list_filter_iff. tauto. Qed.

Lemma index_posts_update fs posts dir name toc :
  fs !! (dir, name) = Some toc →
  index_posts fs posts false dir name =
    Ok (<[(dir, name) :=
            mkTOC (toc_schema toc)
              (surviving
                 (stale_docnums (mkIndex dir name toc) (Post.uid <$> indexed_posts posts))
                 (toc_docs toc)
               ++ (document <$> indexed_posts posts))]> fs).
Proof.
  intros Hfs. unfold index_posts, exists_in, open_index, open_dir.
  rewrite Hfs, bool_decide_eq_true_2 by eauto. cbn [andb negb].
  rewrite index_loop_eq. unfold commit, writer, stale_docnums, indexed_posts, rooted.
  cbn. by rewrite (right_id_L ∅ (∪)), <- list_fmap_compose.
Qed.

Lemma index_posts_create fs posts create_new dir name :
  create_new = true ∨ fs !! (dir, name) = None →
  index_posts fs posts create_new dir name =
    Ok (<[(dir, name) := mkTOC get_schema (document <$> indexed_posts posts)]> fs).
Proof.
  intros Hnew. unfold index_posts.
  assert (exists_in fs dir name && negb create_new = false) as ->.
  { destruct Hnew as [->|Hnone]; [apply andb_false_r|].
    unfold exists_in. rewrite Hnone, bool_decide_eq_false_2; [done|].
    by intros [? ?]. }
  cbn. rewrite index_loop_eq. unfold commit. cbn.
  by rewrite insert_insert_eq.
Qed.

(** A run of [index_posts] always commits. *)
Lemma index_posts_total fs posts create_new dir name :
  ∃ fs', index_posts fs posts create_new dir name = Ok fs'.
Proof.
  destruct create_new.
  - rewrite index_posts_create by auto. eauto.
  - destruct (fs !! (dir, name)) as [toc|] eqn:Hfs.
    + erewrite index_posts_update by done. eauto.
    + rewrite index_posts_create by auto. eauto.
Qed.

(** ** Counting what survives an update run *)

Section Survivors.
Context (dir name : string) (toc : TOC) (stored : bool).
Hypothesis uid_is_ID : toc_schema toc !! "uid" = Some (ID stored).

Local Abbreviation ix := (mkIndex dir name toc).

Lemma elem_of_uid_hits u nd :
  nd ∈ uid_hits toc u ↔ Doc.uid nd.2 = u ∧ nd ∈ enumerate 0 (toc_docs toc).
Proof using uid_is_ID.
  by rewrite (uid_hits_filter _ _ _ uid_is_ID), list_elem_of_filter.
Qed.

Lemma elem_of_stale u n :
  n ∈ stale ix u ↔ ∃ d hs, uid_hits toc u = (n, d) :: hs.
Proof.
  unfold stale, uid_hits. cbn.
  destruct (hits toc _) as [|[n' d'] hs].
  - rewrite elem_of_empty. split; [done|]. by intros (? & ? & ?).
  - rewrite elem_of_singleton. split.
    + intros ->. eauto.
    + by intros (? & ? & [= -> _ _]).
Qed.

(** A hit for [u] that some lookup deletes is the first hit for [u]. *)
Lemma stale_is_first_hit u u' nd :
  nd ∈ uid_hits toc u → nd.1 ∈ stale ix u' →
  u' = u ∧ ∃ hs, uid_hits toc u = nd :: hs.
Proof using uid_is_ID.
  intros Hnd (d' & hs & Hhits)%elem_of_stale.
  apply elem_of_uid_hits in Hnd as [Hu Hin].
  assert ((nd.1, d') ∈ uid_hits toc u') as [Hu' Hin']%elem_of_uid_hits.
  { rewrite Hhits. apply list_elem_of_here. }
  destruct nd as [n d]. simpl in *.
  assert (d = d') as <- by (by eapply enumerate_inj).
  assert (u' = u) as -> by congruence. eauto.
Qed.

Lemma uid_count_hits u : uid_count u (toc_docs toc) = length (uid_hits toc u).
Proof using uid_is_ID.
  unfold uid_count. rewrite (uid_hits_filter _ _ _ uid_is_ID).
  rewrite <- (enumerate_snd 0 (toc_docs toc)) at 1.
  by rewrite filter_fmap, length_fmap.
Qed.

Lemma uid_count_surviving_hits deleted u :
  uid_count u (surviving deleted (toc_docs toc)) =
    length (filter (λ nd, nd.1 ∉ deleted) (uid_hits toc u)).
Proof using uid_is_ID.
  unfold uid_count, surviving. rewrite (uid_hits_filter _ _ _ uid_is_ID).
  by rewrite filter_fmap, length_fmap, filter_swap.
Qed.

(** An update run removes, for each uid it indexes, the first document
    of that uid and no other. *)
Lemma uid_count_surviving uids u :
  uid_count u (surviving (stale_docnums ix uids) (toc_docs toc)) =
    uid_count u (toc_docs toc) - (if decide (u ∈ uids) then 1 else 0).
Proof using uid_is_ID.
  rewrite uid_count_surviving_hits, uid_count_hits.
  assert (∀ nd, nd ∈ uid_hits toc u → nd.1 ∈ stale_docnums ix uids →
            u ∈ uids ∧ ∃ hs, uid_hits toc u = nd :: hs) as Hfirst.
  { intros nd Hnd (X & (u' & -> & Hu')%list_elem_of_fmap & Hin)%elem_of_union_list.
    destruct (stale_is_first_hit u u' nd Hnd Hin) as [-> ?]. eauto. }
  case_decide as Hu.
  - pose proof (hits_NoDup toc (parse ["uid"] (toc_schema toc) u)) as Hnodup.
    fold (uid_hits toc u) in Hnodup.
    destruct (uid_hits toc u) as [|[n d] hs] eqn:Hhits; [done|].
    rewrite filter_cons_False.
    + rewrite filter_all; [simpl; lia|].
      apply Forall_forall. intros nd Hnd Hdel.
      destruct (Hfirst nd) as (_ & hs' & Heq); [rewrite ?Hhits; by right|done|].
      rewrite ?Hhits in Heq. injection Heq as <- <-.
      apply NoDup_cons in Hnodup as [Hn _]. apply Hn.
      by apply (list_elem_of_fmap_2 fst) in Hnd.
    + intros Hn. apply Hn. apply elem_of_union_list. exists (stale ix u).
      split; [by apply list_elem_of_fmap_2|].
      apply elem_of_stale. eauto.
  - rewrite filter_all; [lia|].
    apply Forall_forall. intros nd Hnd Hdel.
    by destruct (Hfirst nd Hnd Hdel).
Qed.
End Survivors.

(** ** Counting lemmas *)

Lemma uid_count_app u docs1 docs2 :
  uid_count u (docs1 ++ docs2) = uid_count u docs1 + uid_count u docs2.
Proof. unfold uid_count. by rewrite filter_app, length_app. Qed.

Lemma uid_count_document u posts :
  uid_count u (document <$> posts) = post_count u posts.
Proof. unfold uid_count, post_count. by rewrite filter_fmap, length_fmap. Qed.

Lemma uid_count_elem_of u docs d :
  d ∈ docs → Doc.uid d = u → 1 ≤ uid_count u docs.
Proof.
  intros (l1 & l2 & ->)%list_elem_of_split Hu. unfold uid_count.
  rewrite filter_app, filter_cons_True, length_app by done. simpl. lia.
Qed.


Lemma post_count_zero u posts :
  u ∉ Post.uid <$> posts → post_count u posts = 0.
Proof.
  intros Hu. unfold post_count. rewrite filter_none; [done|].
  apply Forall_forall. intros post Hin <-. apply Hu.
  by apply list_elem_of_fmap_2.
Qed.

Lemma post_count_NoDup u posts :
  NoDup (Post.uid <$> posts) → post_count u posts ≤ 1.
Proof.
  induction posts as [|post posts IH]; [simpl; unfold post_count; simpl; lia|].
  rewrite fmap_cons, NoDup_cons. intros [Hnotin Hnodup].
  unfold post_count. rewrite filter_cons. case_decide as Hu.
  - subst u. fold (post_count (Post.uid post) posts).
    simpl. fold (post_count (Post.uid post) posts).
    by rewrite post_count_zero.
  - by apply IH.
Qed.

Lemma post_count_elem_of u posts :
  u ∈ Post.uid <$> posts → 1 ≤ post_count u posts.
Proof.
  intros (post & -> & (l1 & l2 & ->)%list_elem_of_split)%list_elem_of_fmap.
  unfold post_count.
  rewrite filter_app, filter_cons_True, length_app by done. simpl. lia.
Qed.

(** Two entries at different places of a list are both kept by a filter
    they pass. *)
Lemma length_filter_two {A} (P : A → Prop) `{!∀ x, Decision (P x)}
    (l : list A) i j x y :
  i ≠ j → l !! i = Some x → l !! j = Some y → P x → P y →
  2 ≤ length (filter P l).
Proof.
  assert (∀ a b x y, a < b → l !! a = Some x → l !! b = Some y →
            P x → P y → 2 ≤ length (filter P l)) as Hlt.
  { clear. intros a b x y Hab Ha Hb Hx Hy.
    rewrite <- (take_drop_middle l a x Ha).
    assert (drop (S a) l !! (b - S a) = Some y) as Hb'.
    { rewrite lookup_drop. by replace (S a + (b - S a)) with b by lia. }
    rewrite <- (take_drop_middle _ _ _ Hb').
    rewrite filter_app, filter_cons_True, filter_app, filter_cons_True by done.
    rewrite !length_app. simpl. rewrite !length_app. simpl. lia. }
  intros Hij Hi Hj Hx Hy. destruct (decide (i < j)).
  - by apply (Hlt i j x y).
  - by apply (Hlt j i y x); [lia|..].
Qed.

Lemma unique_uids_inj docs d1 d2 :
  unique_uids docs → d1 ∈ docs → d2 ∈ docs → Doc.uid d1 = Doc.uid d2 → d1 = d2.
Proof.
  intros Huniq (l1 & l2 & ->)%list_elem_of_split Hd2 Huid.
  specialize (Huniq (Doc.uid d1)). rewrite uid_count_app in Huniq.
  change (d1 :: l2) with ([d1] ++ l2) in Huniq. rewrite uid_count_app in Huniq.
  assert (uid_count (Doc.uid d1) [d1] = 1) as Hone.
  { unfold uid_count. by rewrite filter_cons_True. }
  rewrite elem_of_app, elem_of_cons in Hd2. destruct Hd2 as [Hd2|[->|Hd2]]; [|done|].
  - pose proof (uid_count_elem_of (Doc.uid d1) l1 d2 Hd2 (eq_sym Huid)). lia.
  - pose proof (uid_count_elem_of (Doc.uid d1) l2 d2 Hd2 (eq_sym Huid)). lia.
Qed.

Lemma get_schema_uid : get_schema !! "uid" = Some (ID true).
Proof. reflexivity. Qed.

Lemma get_schema_title : get_schema !! "title" = Some (NGRAMWORDS true tokenizer).
Proof. reflexivity. Qed.

(** The committed index after an update run: every indexed post has its
    document in it, and the documents of each uid are those that were
    there, less the first one if the uid was reindexed, plus one per
    indexed post of that uid. *)
Lemma index_posts_update_count fs posts dir name toc stored :
  fs !! (dir, name) = Some toc →
  toc_schema toc !! "uid" = Some (ID stored) →
  ∃ toc',
    index_posts fs posts false dir name = Ok (<[(dir, name) := toc']> fs) ∧
    toc_schema toc' = toc_schema toc ∧
    (∀ post, post ∈ indexed_posts posts → document post ∈ toc_docs toc') ∧
    ∀ u, uid_count u (toc_docs toc') =
           uid_count u (toc_docs toc)
           - (if decide (u ∈ Post.uid <$> indexed_posts posts) then 1 else 0)
           + post_count u (indexed_posts posts).
Proof.
  intros Hfs Hsch. eexists. split; [by apply index_posts_update|].
  cbn [toc_schema toc_docs]. split_and!; [done| |].
  - intros post Hpost. apply elem_of_app. right. by apply list_elem_of_fmap_2.
  - intros u. rewrite uid_count_app, uid_count_document.
    by rewrite (uid_count_surviving dir name toc stored Hsch).
Qed.

Lemma elem_of_surviving deleted docs n d :
  (n, d) ∈ enumerate 0 docs → n ∉ deleted → d ∈ surviving deleted docs.
Proof.
  intros Hin Hn. unfold surviving.
  apply (list_elem_of_fmap_2' snd _ (n, d)); [|done].
  by apply list_elem_of_filter.
Qed.

Lemma indexed_posts_singleton post :
  Post.status post ≠ Post.DELETED → is_Some (Post.root post) →
  indexed_posts [post] = [post].
Proof.
  intros Hlive Hroot. unfold indexed_posts, exclude_deleted.
  by rewrite !filter_cons_True.
Qed.

Lemma elem_of_indexed_posts posts post :
  post ∈ indexed_posts posts ↔
    post ∈ posts ∧ Post.status post ≠ Post.DELETED ∧ is_Some (Post.root post).
Proof.
  unfold indexed_posts, exclude_deleted. rewrite !list_elem_of_filter. tauto.
Qed.




(** ** Delete-before-reindex *)

(** C1, as stated, fails: an update run leaves two live documents with one
    uid when the index already held two of that uid (only the first hit is
    deleted), and when the batch holds two posts of one uid (the lookup
    does not see the pending addition). *)
Lemma update_run_leaves_duplicate_uids :
  (docs_after
     (index_posts
        (index_of [document (question "alpha"); document (question "gamma")])
        [question "beta"] false "index" "main") "index" "main"
   = Some [document (question "gamma"); document (question "beta")]
   ∧ uid_count "p1" [document (question "gamma"); document (question "beta")] = 2)
  ∧
  (docs_after
     (index_posts (index_of []) [question "alpha"; question "beta"]
        false "index" "main") "index" "main"
   = Some [document (question "alpha"); document (question "beta")]
   ∧ uid_count "p1" [document (question "alpha"); document (question "beta")] = 2).
Proof. vm_compute. repeat split. Qed.

(** C1, amended: an update run of [index_posts] on an existing index
    created with the schema of [get_schema] performs delete-before-reindex
    for every post it indexes; when the index held at most one document
    per uid and the indexed posts of the batch have distinct uids, the
    committed index again holds at most one document per uid, the new
    version of every indexed post is in it, and it is the one document
    with that post's uid. *)
Theorem update_run_keeps_uids_unique fs posts dir name toc :
  fs !! (dir, name) = Some toc →
  toc_schema toc = get_schema →
  unique_uids (toc_docs toc) →
  NoDup (Post.uid <$> indexed_posts posts) →
  ∃ toc',
    index_posts fs posts false dir name = Ok (<[(dir, name) := toc']> fs) ∧
    unique_uids (toc_docs toc') ∧
    (∀ post, post ∈ indexed_posts posts →
       document post ∈ toc_docs toc' ∧
       uid_count (Post.uid post) (toc_docs toc') = 1) ∧
    ∀ post d, post ∈ indexed_posts posts → d ∈ toc_docs toc' →
      Doc.uid d = Post.uid post → d = document post.
Proof.
  intros Hfs Hsch Huniq Hnodup.
  destruct (index_posts_update_count fs posts dir name toc true Hfs)
    as (toc' & Hrun & _ & Hdocs & Hcount).
  { rewrite Hsch. apply get_schema_uid. }
  assert (unique_uids (toc_docs toc')) as Huniq'.
  { intros u. rewrite Hcount. specialize (Huniq u).
    pose proof (post_count_NoDup u _ Hnodup).
    case_decide as Hu; [lia|]. rewrite post_count_zero by done. lia. }
  exists toc'. split_and!; [done..| |].
  - intros post Hpost. split; [by apply Hdocs|].
    pose proof (uid_count_elem_of (Post.uid post) (toc_docs toc') (document post)
                  (Hdocs post Hpost) eq_refl).
    specialize (Huniq' (Post.uid post)). lia.
  - intros post d Hpost Hd Huid.
    apply (unique_uids_inj (toc_docs toc')); auto.
Qed.

(** The run that replaces the one document of "p1" by its new version. *)
Lemma update_run_keeps_uids_unique_witness :
  ∃ toc',
    index_posts (index_of [document (question "alpha")]) [question "beta"]
      false "index" "main"
    = Ok (<[("index", "main") := toc']> (index_of [document (question "alpha")])) ∧
    unique_uids (toc_docs toc') ∧
    (∀ post, post ∈ indexed_posts [question "beta"] →
       document post ∈ toc_docs toc' ∧
       uid_count (Post.uid post) (toc_docs toc') = 1) ∧
    ∀ post d, post ∈ indexed_posts [question "beta"] → d ∈ toc_docs toc' →
      Doc.uid d = Post.uid post → d = document post.
Proof.
  apply (update_run_keeps_uids_unique
           (index_of [document (question "alpha")]) [question "beta"]
           "index" "main" (mkTOC get_schema [document (question "alpha")])).
  - reflexivity.
  - reflexivity.
  - intros u. unfold uid_count. cbn [toc_docs]. rewrite filter_cons.
    destruct (decide _); simpl; lia.
  - vm_compute. apply NoDup_singleton.
Defined.

(** ** Reindexing twice *)

(** C2, as stated, fails: after two update runs on the same unchanged post
    the index holds two documents with its uid when it held two before,
    and none when the post has no root or is deleted. *)
Lemma reindex_twice_not_one_document :
  (docs_after
     (index_runs
        (index_of [document (question "alpha"); document (question "gamma")])
        [([question "beta"], false); ([question "beta"], false)] "index" "main")
     "index" "main"
   = Some [document (question "beta"); document (question "beta")]
   ∧ uid_count "p1" [document (question "beta"); document (question "beta")] = 2)
  ∧
  (docs_after
     (index_runs (index_of [])
        [([rootless (question "beta")], false);
         ([rootless (question "beta")], false)] "index" "main")
     "index" "main" = Some []
   ∧ uid_count "p1" [] = 0)
  ∧
  (docs_after
     (index_runs (index_of [])
        [([deleted (question "beta")], false);
         ([deleted (question "beta")], false)] "index" "main")
     "index" "main" = Some []
   ∧ uid_count "p1" [] = 0).
Proof. vm_compute. repeat split. Qed.

(** C2, amended: for every post that is not deleted and has a root, and
    every existing index with the schema of [get_schema] that holds at
    most one document with the post's uid, two update runs of
    [index_posts] on the unchanged post, each committed, leave exactly one
    document with that uid in the index. *)
Theorem reindex_twice_one_document fs post dir name toc :
  fs !! (dir, name) = Some toc →
  toc_schema toc = get_schema →
  Post.status post ≠ Post.DELETED →
  is_Some (Post.root post) →
  uid_count (Post.uid post) (toc_docs toc) ≤ 1 →
  ∃ fs1 fs2,
    index_posts fs [post] false dir name = Ok fs1 ∧
    index_posts fs1 [post] false dir name = Ok fs2 ∧
    indexed_count (Post.uid post) fs1 dir name = 1 ∧
    indexed_count (Post.uid post) fs2 dir name = 1.
Proof.
  intros Hfs Hsch Hlive Hroot Hcount.
  assert (∀ fs toc, fs !! (dir, name) = Some toc → toc_schema toc = get_schema →
            uid_count (Post.uid post) (toc_docs toc) ≤ 1 →
            ∃ toc', index_posts fs [post] false dir name
                      = Ok (<[(dir, name) := toc']> fs) ∧
                    toc_schema toc' = get_schema ∧
                    uid_count (Post.uid post) (toc_docs toc') = 1) as Hstep.
  { clear fs toc Hfs Hsch Hcount. intros fs toc Hfs Hsch Hcount.
    destruct (index_posts_update_count fs [post] dir name toc true Hfs)
      as (toc' & Hrun & Hsch' & _ & Hcount').
    { rewrite Hsch. apply get_schema_uid. }
    exists toc'. split_and!; [done|congruence|].
    rewrite Hcount', indexed_posts_singleton by done.
    rewrite decide_True by (simpl; set_solver).
    unfold post_count. rewrite filter_cons_True by done. simpl. lia. }
  destruct (Hstep fs toc Hfs Hsch Hcount) as (toc1 & Hrun1 & Hsch1 & Hone1).
  destruct (Hstep (<[(dir, name) := toc1]> fs) toc1) as (toc2 & Hrun2 & _ & Hone2);
    [by rewrite lookup_insert_eq|done|lia|].
  eexists _, _. split_and!; [done..| |].
  - unfold indexed_count. by rewrite lookup_insert_eq.
  - unfold indexed_count. by rewrite lookup_insert_eq.
Qed.

(** Reindexing "p1" twice over an index that holds it once. *)
Lemma reindex_twice_one_document_witness :
  ∃ fs1 fs2,
    index_posts (index_of [document (question "alpha")]) [question "beta"]
      false "index" "main" = Ok fs1 ∧
    index_posts fs1 [question "beta"] false "index" "main" = Ok fs2 ∧
    indexed_count "p1" fs1 "index" "main" = 1 ∧
    indexed_count "p1" fs2 "index" "main" = 1.
Proof.
  apply (reindex_twice_one_document
           (index_of [document (question "alpha")]) (question "beta")
           "index" "main" (mkTOC get_schema [document (question "alpha")])).
  - reflexivity.
  - reflexivity.
  - discriminate.
  - simpl. eauto.
  - vm_compute. lia.
Defined.

(** ** Deleted posts *)




(** ** One deletion per lookup *)

(** C9: a call of [delete_existing] adds at most one document number to
    the writer's deletions and touches nothing else; when two or more
    committed documents match the uid, the one deleted is the first hit,
    and every other matching document is left in place: this call does
    not delete it, and it survives the commit unless deleted otherwise. *)
Theorem delete_existing_deletes_first_hit_only ix w uid :
  (∃ docnums : gset nat,
     w_deleted (delete_existing ix w uid) = docnums ∪ w_deleted w ∧
     size docnums ≤ 1) ∧
  w_added (delete_existing ix w uid) = w_added w ∧
  ∀ first second rest,
    uid_hits (searcher ix) uid = first :: second :: rest →
    w_deleted (delete_existing ix w uid) = {[first.1]} ∪ w_deleted w ∧
    ∀ hit, hit ∈ second :: rest →
      hit.1 ≠ first.1 ∧
      (hit.1 ∈ w_deleted (delete_existing ix w uid) ↔ hit.1 ∈ w_deleted w) ∧
      (hit.1 ∉ w_deleted w →
       hit.2 ∈ surviving (w_deleted (delete_existing ix w uid))
                 (toc_docs (ix_toc ix))).
Proof.
  rewrite delete_existing_eq. cbn [w_deleted w_added]. split_and!; [|done|].
  - exists (stale ix uid). split; [done|]. unfold stale.
    destruct (uid_hits _ _) as [|[n d] hs]; [rewrite size_empty; lia|].
    by rewrite size_singleton.
  - intros first second rest Hhits.
    assert (stale ix uid = {[first.1]}) as ->.
    { unfold stale. rewrite Hhits. by destruct first. }
    split; [done|]. intros hit Hhit.
    pose proof (hits_NoDup (searcher ix) (parse ["uid"] (toc_schema (searcher ix)) uid))
      as Hnodup.
    fold (uid_hits (searcher ix) uid) in Hnodup. rewrite Hhits in Hnodup.
    rewrite fmap_cons in Hnodup. apply NoDup_cons in Hnodup as [Hfirst _].
    assert (hit.1 ≠ first.1) as Hne.
    { intros Heq. apply Hfirst. rewrite <- Heq. by apply list_elem_of_fmap_2. }
    assert (hit.1 ∈ {[first.1]} ∪ w_deleted w ↔ hit.1 ∈ w_deleted w) as Hiff.
    { rewrite elem_of_union, elem_of_singleton. tauto. }
    split_and!; [done..|].
    intros Hkept. destruct hit as [n d].
    apply elem_of_surviving with n; [|by rewrite Hiff].
    apply (hits_enumerate (searcher ix) (parse ["uid"] (toc_schema (searcher ix)) uid)).
    fold (uid_hits (searcher ix) uid). rewrite Hhits. by right.
Qed.

(** Two documents of "p1" at numbers 0 and 2: number 0 is deleted, the
    document at number 2 survives. *)
Lemma delete_existing_deletes_first_hit_only_witness :
  w_deleted
    (delete_existing
       (mkIndex "index" "main"
          (mkTOC get_schema
             [document (question "alpha"); document comment;
              document (question "gamma")]))
       (writer
          (mkIndex "index" "main"
             (mkTOC get_schema
                [document (question "alpha"); document comment;
                 document (question "gamma")])))
       "p1")
  = {[0]} ∪ ∅
  ∧ document (question "gamma")
    ∈ surviving
        (w_deleted
           (delete_existing
              (mkIndex "index" "main"
                 (mkTOC get_schema
                    [document (question "alpha"); document comment;
                     document (question "gamma")]))
              (writer
                 (mkIndex "index" "main"
                    (mkTOC get_schema
                       [document (question "alpha"); document comment;
                        document (question "gamma")])))
              "p1"))
        [document (question "alpha"); document comment;
         document (question "gamma")].
Proof.
  pose proof (delete_existing_deletes_first_hit_only
    (mkIndex "index" "main"
       (mkTOC get_schema
          [document (question "alpha"); document comment;
           document (question "gamma")]))
    (writer
       (mkIndex "index" "main"
          (mkTOC get_schema
             [document (question "alpha"); document comment;
              document (question "gamma")])))
    "p1") as (_ & _ & Hfirst).
  destruct (Hfirst (0, document (question "alpha"))
              (2, document (question "gamma")) []) as [Hdel Hrest].
  - reflexivity.
  - split; [exact Hdel|].
    destruct (Hrest (2, document (question "gamma"))) as (_ & _ & Hkept).
    + apply list_elem_of_here.
    + apply Hkept. cbn. apply not_elem_of_empty.
Defined.

(** ** Two posts of one uid in a batch *)

(** C10: [delete_existing] decides what to delete from the committed
    generation the index handle was opened on, whatever the writer holds
    ([stale] reads [ix] alone) and leaves the pending additions alone;
    hence in an update batch where two posts that are indexed (not
    deleted, with a root) share a uid, the documents of both are in the
    committed index, which then holds at least two documents of that
    uid. *)
Theorem same_uid_posts_are_both_indexed fs posts dir name toc i j p q :
  fs !! (dir, name) = Some toc →
  posts !! i = Some p → posts !! j = Some q → i ≠ j →
  Post.uid p = Post.uid q →
  Post.status p ≠ Post.DELETED → is_Some (Post.root p) →
  Post.status q ≠ Post.DELETED → is_Some (Post.root q) →
  (∀ w uid,
     w_deleted (delete_existing (mkIndex dir name toc) w uid)
       = stale (mkIndex dir name toc) uid ∪ w_deleted w ∧
     w_added (delete_existing (mkIndex dir name toc) w uid) = w_added w) ∧
  ∃ toc',
    index_posts fs posts false dir name = Ok (<[(dir, name) := toc']> fs) ∧
    document p ∈ toc_docs toc' ∧
    document q ∈ toc_docs toc' ∧
    2 ≤ uid_count (Post.uid p) (toc_docs toc').
Proof.
  intros Hfs Hi Hj Hij Huid Hp_live Hp_root Hq_live Hq_root. split.
  { intros w uid. by rewrite delete_existing_eq. }
  eexists. split; [by apply index_posts_update|]. cbn [toc_docs].
  assert (p ∈ indexed_posts posts) as Hp.
  { apply elem_of_indexed_posts. split_and!; [|done..].
    by apply list_elem_of_lookup_2 with i. }
  assert (q ∈ indexed_posts posts) as Hq.
  { apply elem_of_indexed_posts. split_and!; [|done..].
    by apply list_elem_of_lookup_2 with j. }
  split_and!.
  - apply elem_of_app. right. by apply list_elem_of_fmap_2.
  - apply elem_of_app. right. by apply list_elem_of_fmap_2.
  - rewrite uid_count_app, uid_count_document.
    enough (2 ≤ post_count (Post.uid p) (indexed_posts posts)) by lia.
    unfold post_count, indexed_posts, exclude_deleted.
    rewrite !list_filter_filter.
    by apply length_filter_two with i j p q.
Qed.

(** A batch with two versions of "p1" over an index that holds one. *)
Lemma same_uid_posts_are_both_indexed_witness :
  (∀ w uid,
     w_deleted (delete_existing
                  (mkIndex "index" "main"
                     (mkTOC get_schema [document (question "alpha")])) w uid)
       = stale (mkIndex "index" "main"
                  (mkTOC get_schema [document (question "alpha")])) uid
         ∪ w_deleted w ∧
     w_added (delete_existing
                (mkIndex "index" "main"
                   (mkTOC get_schema [document (question "alpha")])) w uid)
       = w_added w) ∧
  ∃ toc',
    index_posts (index_of [document (question "alpha")])
      [question "beta"; question "gamma"] false "index" "main"
    = Ok (<[("index", "main") := toc']> (index_of [document (question "alpha")])) ∧
    document (question "beta") ∈ toc_docs toc' ∧
    document (question "gamma") ∈ toc_docs toc' ∧
    2 ≤ uid_count "p1" (toc_docs toc').
Proof.
  apply (same_uid_posts_are_both_indexed
           (index_of [document (question "alpha")])
           [question "beta"; question "gamma"] "index" "main"
           (mkTOC get_schema [document (question "alpha")])
           0 1 (question "beta") (question "gamma")).
  - reflexivity.
  - reflexivity.
  - reflexivity.
  - lia.
  - reflexivity.
  - discriminate.
  - simpl. eauto.
  - discriminate.
  - simpl. eauto.
Defined.

(** ** The query entry point *)

Lemma open_index_Some fs dir name toc :
  fs !! (dir, name) = Some toc →
  open_index fs dir name = Some (mkIndex dir name toc).
Proof. intros Hfs. unfold open_index, open_dir. by rewrite Hfs. Qed.

Lemma open_index_None fs dir name :
  fs !! (dir, name) = None → open_index fs dir name = None.
Proof. intros Hfs. unfold open_index, open_dir. by rewrite Hfs. Qed.

(** C3, as stated, fails: [query] has no [limit] parameter; a caller's
    [limit] lands in [kwargs] and collides with the [limit=] of the call
    to [searcher.search]. *)
Lemma query_with_limit_raises :
  query 30 plain_collector (index_of [document (question "alpha")])
    "alpha" ["content"] "index" "main" {["limit" := PyInt 5]}
  = Raise TypeError.
Proof. reflexivity. Qed.

(** C3, amended: [query] takes no result-count limit from its caller; the
    limit it passes to the engine is always the configured constant
    [SIMILAR_FEED_COUNT], and a [limit] keyword added to the call raises
    [TypeError].  A query on an index that opens, with options the engine
    accepts, returns hits of its plan only: as many as there are, up to
    [SIMILAR_FEED_COUNT] and never more. *)
Theorem query_returns_at_most_the_configured_count
    SIMILAR_FEED_COUNT collector fs q fields dir name kwargs ix options :
  open_index fs dir name = Some ix →
  kwargs !! "limit" = None →
  collector kwargs = Some options →
  (∀ limit,
     query SIMILAR_FEED_COUNT collector fs q fields dir name
       (<["limit" := limit]> kwargs)
     = Raise TypeError) ∧
  ∃ results,
    query SIMILAR_FEED_COUNT collector fs q fields dir name kwargs = Ok results ∧
    length (items results) ≤ SIMILAR_FEED_COUNT ∧
    length (items results)
      = SIMILAR_FEED_COUNT
        `min` length (options (hits (searcher ix) (parse fields (schema ix) q))) ∧
    ∀ hit, hit ∈ items results →
      hit ∈ options (hits (searcher ix) (parse fields (schema ix) q)).
Proof.
  intros Hopen Hlimit Hopts. unfold query. rewrite Hopen. split.
  - intros limit. rewrite decide_True; [done|].
    rewrite lookup_insert_eq. by eexists.
  - rewrite decide_False by (rewrite Hlimit; by intros [? ?]).
    rewrite Hopts. eexists. split; [done|].
    cbn [items search]. rewrite length_take. split_and!; [lia|done|].
    intros hit Hhit. by apply elem_of_take in Hhit as (i & Hi%list_elem_of_lookup_2 & _).
Qed.

(** Three posts answer "alpha" and the configured count is 2: the query,
    called with the engine's [terms] option, returns two of the three
    hits, and with a [limit] of 3 added it raises. *)
Lemma query_returns_at_most_the_configured_count_witness :
  ((∀ limit,
      query 2 plain_collector
        (index_of [document (question "alpha"); document comment;
                   document (question "alpha beta");
                   document (question "gamma alpha")])
        "alpha" ["content"] "index" "main"
        (<["limit" := limit]> {["terms" := PyBool true]})
      = Raise TypeError) ∧
   ∃ results,
     query 2 plain_collector
       (index_of [document (question "alpha"); document comment;
                  document (question "alpha beta");
                  document (question "gamma alpha")])
       "alpha" ["content"] "index" "main" {["terms" := PyBool true]}
     = Ok results ∧
     length (items results) ≤ 2 ∧
     length (items results)
       = 2 `min` length
                   (id (hits
                          (searcher
                             (mkIndex "index" "main"
                                (mkTOC get_schema
                                   [document (question "alpha"); document comment;
                                    document (question "alpha beta");
                                    document (question "gamma alpha")])))
                          (parse ["content"]
                             (schema
                                (mkIndex "index" "main"
                                   (mkTOC get_schema
                                      [document (question "alpha"); document comment;
                                       document (question "alpha beta");
                                       document (question "gamma alpha")])))
                             "alpha"))) ∧
     ∀ hit, hit ∈ items results →
       hit ∈ id (hits
                   (searcher
                      (mkIndex "index" "main"
                         (mkTOC get_schema
                            [document (question "alpha"); document comment;
                             document (question "alpha beta");
                             document (question "gamma alpha")])))
                   (parse ["content"]
                      (schema
                         (mkIndex "index" "main"
                            (mkTOC get_schema
                               [document (question "alpha"); document comment;
                                document (question "alpha beta");
                                document (question "gamma alpha")])))
                      "alpha")))
  ∧ length
      (hits
         (mkTOC get_schema
            [document (question "alpha"); document comment;
             document (question "alpha beta"); document (question "gamma alpha")])
         (parse ["content"] get_schema "alpha"))
    = 3.
Proof.
  split.
  - apply (query_returns_at_most_the_configured_count 2 plain_collector
             (index_of [document (question "alpha"); document comment;
                        document (question "alpha beta");
                        document (question "gamma alpha")])
             "alpha" ["content"] "index" "main" {["terms" := PyBool true]}
             (mkIndex "index" "main"
                (mkTOC get_schema
                   [document (question "alpha"); document comment;
                    document (question "alpha beta");
                    document (question "gamma alpha")]))
             id).
    + reflexivity.
    + reflexivity.
    + reflexivity.
  - vm_compute. reflexivity.
Defined.

(** C4, the code at the failing input: when the index cannot be opened,
    [open_index] gives [None] and [query] raises [AttributeError] at
    [ix.searcher()]. *)
Theorem query_on_unopened_index_raises
    SIMILAR_FEED_COUNT collector fs q fields dir name kwargs :
  open_index fs dir name = None →
  query SIMILAR_FEED_COUNT collector fs q fields dir name kwargs
    = Raise AttributeError.
Proof. intros Hopen. unfold query. by rewrite Hopen. Qed.

(** A query against an empty storage. *)
Lemma query_on_unopened_index_raises_witness :
  query 30 plain_collector ∅ "alpha" ["content"] "index" "main" ∅
    = Raise AttributeError.
Proof.
  apply (query_on_unopened_index_raises 30 plain_collector ∅
           "alpha" ["content"] "index" "main" ∅).
  reflexivity.
Defined.

(** ** Title scoping *)

Lemma field_terms_empty_title d :
  Doc.title d = "" → field_terms get_schema d "title" = [].
Proof.
  intros Htitle. unfold field_terms. rewrite get_schema_title.
  change (field_text d "title") with (Some (Doc.title d)).
  by rewrite Htitle.
Qed.

Lemma parse_title q :
  parse ["title"] get_schema q = (λ t, ("title", t)) <$> tokenizer q.
Proof. unfold parse. simpl. by rewrite app_nil_r, get_schema_title. Qed.

(** C6: [add_index] adds one document, whose title is the post's title
    when the post is top-level and the empty string otherwise; the
    document of a post that is not top-level is posted under no term of
    the title field, so no plan over the title field matches it and no
    query parsed against the title field has it among its hits. *)
Theorem title_only_for_toplevel post w :
  w_added (add_index post w) = w_added w ++ [document post] ∧
  Doc.title (document post)
    = (if Post.is_toplevel post then Post.title post else "") ∧
  (Post.is_toplevel post = false →
   field_terms get_schema (document post) "title" = [] ∧
   (∀ plan : Query, Forall (λ ft, ft.1 = "title") plan →
      matches get_schema plan (document post) = false) ∧
   (∀ toc q n, toc_schema toc = get_schema →
      (n, document post) ∉ hits toc (parse ["title"] (toc_schema toc) q))).
Proof.
  split_and!; [done|cbn; by destruct (Post.is_toplevel post)|].
  intros Hnot.
  assert (field_terms get_schema (document post) "title" = []) as Hterms.
  { apply field_terms_empty_title. unfold document. cbn. by rewrite Hnot. }
  assert (∀ plan : Query, Forall (λ ft, ft.1 = "title") plan →
            matches get_schema plan (document post) = false) as Hplan.
  { intros plan Hplan. unfold matches. apply bool_decide_eq_false_2.
    rewrite Exists_exists. intros (ft & Hin & Hterm).
    rewrite Forall_forall in Hplan. rewrite (Hplan ft Hin), Hterms in Hterm.
    by apply elem_of_nil in Hterm. }
  split_and!; [done..|].
  intros toc q n Hsch. unfold hits. rewrite list_elem_of_filter, Hsch.
  intros [Hmatch _]. cbn [snd] in Hmatch. rewrite Hplan in Hmatch; [done|].
  rewrite parse_title. apply Forall_fmap, Forall_forall. by intros.
Qed.

(** The comment's own title, "bowtie", is not searchable in the title
    field; the question's title is kept. *)
Lemma title_only_for_toplevel_witness :
  Doc.title (document comment) = "" ∧
  Doc.title (document (question "alpha")) = "Aligning reads" ∧
  matches get_schema (parse ["title"] get_schema "bowtie") (document comment)
    = false.
Proof.
  destruct (title_only_for_toplevel comment (writer (mkIndex "index" "main"
              (mkTOC get_schema [])))) as (_ & Htitle & Hterms).
  destruct (Hterms eq_refl) as (_ & Hplan & _).
  split_and!; [exact Htitle|reflexivity|].
  apply Hplan. vm_compute. repeat constructor.
Defined.

(** ** Highlight bounds *)

Lemma length_substring n m s : String.length (String.substring n m s) ≤ m.
Proof.
  revert n m. induction s as [|c s IH]; intros [|n] [|m]; simpl; try lia.
  - specialize (IH 0 m). lia.
  - apply (IH n 0).
  - apply (IH n (S m)).
Qed.

Lemma fragment_bounds f text startchar endchar :
  startchar ≤ endchar →
  String.length (frag_text (fragment f text startchar endchar)) ≤ maxchars f ∧
  startchar - frag_start (fragment f text startchar endchar) ≤ surround f ∧
  frag_end (fragment f text startchar endchar) - endchar ≤ surround f.
Proof.
  intros Hspan. unfold frag_end, fragment. cbn [frag_start frag_text].
  pose proof (length_substring (startchar - surround f)
    (maxchars f `min` ((endchar + surround f) `min` String.length text
                       - (startchar - surround f))) text).
  lia.
Qed.

(** C7: the result set [query] returns has its highlighter set to at most
    300 characters per excerpt and 50 characters of context; every
    excerpt cut for a hit of the result set around a match span is at
    most 300 characters long and reaches at most 50 characters before the
    span and 50 after it. *)
Theorem query_excerpts_are_bounded
    SIMILAR_FEED_COUNT collector fs q fields dir name kwargs results :
  query SIMILAR_FEED_COUNT collector fs q fields dir name kwargs = Ok results →
  fragmenter results = mkFragmenter 300 50 ∧
  ∀ n d fieldname startchar endchar frag,
    (n, d) ∈ items results →
    startchar ≤ endchar →
    highlights results d fieldname startchar endchar = Some frag →
    String.length (frag_text frag) ≤ 300 ∧
    startchar - frag_start frag ≤ 50 ∧
    frag_end frag - endchar ≤ 50.
Proof.
  unfold query. intros Hq.
  destruct (open_index fs dir name) as [ix|]; [|done].
  case_decide; [done|].
  destruct (collector kwargs) as [options|]; [|done].
  injection Hq as <-. split; [done|].
  intros n d fieldname startchar endchar frag _ Hspan Hfrag.
  unfold highlights in Hfrag. cbn [fragmenter] in Hfrag.
  destruct (field_text d fieldname) as [text|]; [|done].
  injection Hfrag as <-.
  apply (fragment_bounds (mkFragmenter 300 50) text startchar endchar Hspan).
Qed.

(** The excerpt around "bowtie" in the comment found by a content query. *)
Lemma query_excerpts_are_bounded_witness :
  String.length
    (frag_text (fragment (mkFragmenter 300 50) "try bowtie" 4 10)) ≤ 300 ∧
  4 - frag_start (fragment (mkFragmenter 300 50) "try bowtie" 4 10) ≤ 50 ∧
  frag_end (fragment (mkFragmenter 300 50) "try bowtie" 4 10) - 10 ≤ 50.
Proof.
  destruct (query_excerpts_are_bounded 30 plain_collector
              (index_of [document (question "alpha"); document comment])
              "bowtie" ["content"] "index" "main" ∅
              (mkResults [(1, document comment)] (mkFragmenter 300 50)))
    as [_ Hbound].
  - vm_compute. reflexivity.
  - apply (Hbound 1 (document comment) "content" 4 10).
    + apply list_elem_of_here.
    + lia.
    + reflexivity.
Defined.

(** ** The stop list *)

Lemma STOP_from_union baseline :
  STOP_from baseline = list_to_set baseline ∪ {["there"; "where"; "who"]}.
Proof.
  unfold STOP_from. rewrite list_to_set_app_L, (comm_L (∪)). f_equal.
Qed.

(** C8: the stop list the tokenizer pipeline filters with is the baseline
    list together with "there", "where" and "who"; none of the three is
    in the baseline, so the set has three words more than the baseline. *)
Theorem STOP_is_baseline_plus_three :
  STOP = list_to_set STOP_WORDS ∪ {["there"; "where"; "who"]} ∧
  ("there" ∉ STOP_WORDS) ∧ ("where" ∉ STOP_WORDS) ∧ ("who" ∉ STOP_WORDS) ∧
  size STOP = size (list_to_set STOP_WORDS : gset string) + 3 ∧
  ∀ text t, t ∈ tokenizer text ↔ t ∈ SpaceSeparatedTokenizer text ∧ t ∉ STOP.
Proof.
  split_and!.
  - apply STOP_from_union.
  - apply (bool_decide_unpack _). by vm_compute.
  - apply (bool_decide_unpack _). by vm_compute.
  - apply (bool_decide_unpack _). by vm_compute.
  - by vm_compute.
  - intros text t. unfold tokenizer, StopFilter.
    rewrite list_elem_of_filter. tauto.
Qed.

(** * Further properties of the index maintenance *)

(** ** An update run without document numbers *)

Lemma filter_ext_in {A} (P Q : A → Prop)
    `{!∀ x, Decision (P x), !∀ x, Decision (Q x)} (l : list A) :
  (∀ x, x ∈ l → (P x ↔ Q x)) → filter P l = filter Q l.
Proof.
  induction l as [|x l IH]; intros Hext; [done|].
  rewrite !filter_cons.
  rewrite IH by (intros y Hy; apply Hext; by right).
  apply decide_ext, Hext, list_elem_of_here.
Qed.

Lemma enumerate_ge n docs nd : nd ∈ enumerate n docs → n ≤ nd.1.
Proof. destruct nd as [i d]. rewrite elem_of_enumerate. simpl. lia. Qed.

Lemma first_docnum_elem_of hs n :
  n ∈ first_docnum hs → ∃ d, (n, d) ∈ hs.
Proof.
  destruct hs as [|[n' d'] hs]; simpl; [by rewrite elem_of_empty|].
  rewrite elem_of_singleton. intros ->. exists d'. apply list_elem_of_here.
Qed.

(** Taking out the first hit of every looked-up uid is [drop_first_of]. *)
Lemma drop_first_of_enumerate docs n (X : gset nat) (uids : list string) :
  (∀ i, i ∈ X → i < n) →
  (filter
     (λ nd : Hit,
        nd.1 ∉ X ∪ ⋃ ((λ u, first_docnum
                              (filter (λ nd : Hit, Doc.uid nd.2 = u)
                                 (enumerate n docs))) <$> uids))
     (enumerate n docs)).*2
  = drop_first_of (list_to_set uids) docs.
Proof.
  revert n X uids. induction docs as [|d docs IH]; intros n X uids HX; [done|].
  cbn [enumerate drop_first_of].
  set (E := enumerate (S n) docs).
  set (F' := λ u, first_docnum (filter (λ nd : Hit, Doc.uid nd.2 = u) E)).
  assert (∀ u i, i ∈ F' u → S n ≤ i) as HF'.
  { intros u i (d' & Hin)%first_docnum_elem_of.
    apply list_elem_of_filter in Hin as [_ Hin].
    by apply enumerate_ge in Hin. }
  assert (∀ u, first_docnum (filter (λ nd : Hit, Doc.uid nd.2 = u) ((n, d) :: E))
               = if decide (Doc.uid d = u) then {[n]} else F' u) as HF.
  { intros u. rewrite filter_cons. cbn [snd]. by case_decide. }
  rewrite (list_fmap_ext _ (λ u, if decide (Doc.uid d = u) then {[n]} else F' u) uids)
    by (intros; apply HF).
  case_decide as Hd.
  - apply elem_of_list_to_set in Hd.
    rewrite filter_cons_False.
    2:{ cbn [fst]. intros Hn. apply Hn. apply elem_of_union. right.
        apply elem_of_union_list. exists {[n]}. split; [|by apply elem_of_singleton].
        apply list_elem_of_fmap. exists (Doc.uid d). by rewrite decide_True. }
    assert (list_to_set uids ∖ {[Doc.uid d]}
            = (list_to_set (filter (λ u, u ≠ Doc.uid d) uids) : gset string)) as ->.
    { apply set_eq. intros u.
      rewrite elem_of_difference, !elem_of_list_to_set, list_elem_of_filter,
        elem_of_singleton. tauto. }
    rewrite <- (IH (S n) (X ∪ {[n]}) (filter (λ u, u ≠ Doc.uid d) uids)).
    2:{ intros i [Hi| ->%elem_of_singleton]%elem_of_union; [|lia].
        specialize (HX i Hi). lia. }
    + f_equal. apply filter_ext_in. intros nd _.
      enough (X ∪ ⋃ ((λ u, if decide (Doc.uid d = u) then {[n]} else F' u) <$> uids)
              = X ∪ {[n]} ∪ ⋃ (F' <$> filter (λ u, u ≠ Doc.uid d) uids)) as -> by done.
      apply set_eq. intros i.
      rewrite !elem_of_union, !elem_of_union_list, elem_of_singleton. split.
      * intros [?|(Y & (u & -> & Hu)%list_elem_of_fmap & Hi)]; [tauto|].
        case_decide as Hdu.
        -- apply elem_of_singleton in Hi. tauto.
        -- right. exists (F' u). split; [|done].
           apply list_elem_of_fmap. exists u. split; [done|].
           apply list_elem_of_filter. split; [congruence|done].
      * intros [[?| ->]|(Y & (u & -> & [Hne Hu]%list_elem_of_filter)%list_elem_of_fmap & Hi)];
          [tauto| |].
        -- right. exists {[n]}. split; [|by apply elem_of_singleton].
           apply list_elem_of_fmap. exists (Doc.uid d). by rewrite decide_True.
        -- right. exists (F' u). split; [|done].
           apply list_elem_of_fmap. exists u. split; [|done].
           by rewrite decide_False by congruence.
  - rewrite elem_of_list_to_set in Hd.
    assert (((λ u, if decide (Doc.uid d = u) then {[n]} else F' u) <$> uids)
            = F' <$> uids) as ->.
    { apply list_fmap_ext. intros i u Hu. rewrite decide_False; [done|].
      intros <-. apply Hd. by eapply list_elem_of_lookup_2. }
    rewrite filter_cons_True.
    2:{ cbn [fst]. intros [Hn|(Y & (u & -> & Hu)%list_elem_of_fmap & Hi)%elem_of_union_list]%elem_of_union.
        - specialize (HX n Hn). lia.
        - specialize (HF' u n Hi). lia. }
    rewrite fmap_cons. cbn [snd]. f_equal.
    apply (IH (S n) X uids). intros i Hi. specialize (HX i Hi). lia.
Qed.

Lemma stale_first_docnum dir name toc u :
  stale (mkIndex dir name toc) u = first_docnum (uid_hits toc u).
Proof. done. Qed.

Lemma surviving_drop_first dir name toc stored uids :
  toc_schema toc !! "uid" = Some (ID stored) →
  surviving (stale_docnums (mkIndex dir name toc) uids) (toc_docs toc)
  = drop_first_of (list_to_set uids) (toc_docs toc).
Proof.
  intros Hsch. unfold surviving, stale_docnums.
  rewrite <- (drop_first_of_enumerate (toc_docs toc) 0 ∅ uids)
    by (intros i Hi; by apply elem_of_empty in Hi).
  rewrite (left_id_L ∅ (∪)).
  assert (stale (mkIndex dir name toc) <$> uids
          = (λ u, first_docnum (filter (λ nd : Hit, Doc.uid nd.2 = u)
                                  (enumerate 0 (toc_docs toc)))) <$> uids) as ->;
    [|done].
  apply list_fmap_ext. intros _ u _.
  by rewrite stale_first_docnum, (uid_hits_filter _ _ _ Hsch).
Qed.

Lemma drop_first_of_disjoint uids docs :
  (∀ d, d ∈ docs → Doc.uid d ∉ uids) → drop_first_of uids docs = docs.
Proof.
  induction docs as [|d docs IH]; intros Hdis; [done|]. simpl.
  rewrite decide_False by (apply Hdis, list_elem_of_here).
  rewrite IH; [done|]. intros d' Hd'. apply Hdis. by right.
Qed.

Lemma drop_first_of_app uids docs1 docs2 :
  drop_first_of uids (docs1 ++ docs2)
  = drop_first_of uids docs1
    ++ drop_first_of (uids ∖ list_to_set (Doc.uid <$> docs1)) docs2.
Proof.
  revert uids. induction docs1 as [|d docs1 IH]; intros uids; simpl.
  - f_equal. apply set_eq. intros u. rewrite elem_of_difference, elem_of_empty. tauto.
  - case_decide as Hd.
    + rewrite IH. do 2 f_equal. apply set_eq. intros u.
      rewrite !elem_of_difference, elem_of_union, elem_of_singleton. tauto.
    + rewrite IH. simpl. do 3 f_equal. apply set_eq. intros u.
      rewrite !elem_of_difference, elem_of_union, elem_of_singleton.
      split; [|tauto]. intros [Hu Hnot]. split; [done|].
      intros [->|?]; tauto.
Qed.

Lemma drop_first_of_twice uids1 uids2 docs :
  uids1 ## uids2 →
  drop_first_of uids2 (drop_first_of uids1 docs) = drop_first_of (uids1 ∪ uids2) docs.
Proof.
  revert uids1 uids2. induction docs as [|d docs IH]; intros uids1 uids2 Hdis; [done|].
  simpl. destruct (decide (Doc.uid d ∈ uids1)) as [H1|H1].
  - rewrite decide_True by (apply elem_of_union; tauto).
    rewrite IH by (intros u [Hu _]%elem_of_difference; by apply Hdis).
    f_equal. apply set_eq. intros u.
    rewrite !elem_of_difference, !elem_of_union, !elem_of_difference, elem_of_singleton.
    split; [|tauto]. intros [[? ?]|Hu]; [tauto|].
    split; [tauto|]. intros ->. by apply (Hdis (Doc.uid d)).
  - simpl. destruct (decide (Doc.uid d ∈ uids2)) as [H2|H2].
    + rewrite decide_True by (apply elem_of_union; tauto).
      rewrite IH by (intros u Hu [Hu' _]%elem_of_difference; by apply (Hdis u)).
      f_equal. apply set_eq. intros u.
      rewrite !elem_of_difference, !elem_of_union, !elem_of_difference, elem_of_singleton.
      split; [|tauto]. intros [Hu|[? ?]]; [|tauto].
      split; [tauto|]. intros ->. done.
    + rewrite decide_False by (rewrite elem_of_union; tauto).
      by rewrite IH.
Qed.

(** Documents of other uids pass [drop_first_of] untouched, in order. *)
Lemma drop_first_of_others uids docs :
  filter (λ d, Doc.uid d ∉ uids) (drop_first_of uids docs)
  = filter (λ d, Doc.uid d ∉ uids) docs.
Proof.
  assert (∀ uids' : gset string, uids' ⊆ uids →
            filter (λ d, Doc.uid d ∉ uids) (drop_first_of uids' docs)
            = filter (λ d, Doc.uid d ∉ uids) docs) as Hgen.
  { induction docs as [|d docs IH]; intros uids' Hsub; [done|]. simpl.
    case_decide as Hd.
    - rewrite filter_cons_False by (intros Hn; apply Hn, Hsub, Hd).
      apply IH. intros u [Hu _]%elem_of_difference. by apply Hsub.
    - rewrite !filter_cons. case_decide; by rewrite IH. }
  by apply Hgen.
Qed.

Lemma indexed_posts_app posts1 posts2 :
  indexed_posts (posts1 ++ posts2) = indexed_posts posts1 ++ indexed_posts posts2.
Proof. unfold indexed_posts, exclude_deleted. by rewrite !filter_app. Qed.

Lemma indexed_posts_idemp posts :
  indexed_posts (indexed_posts posts) = indexed_posts posts.
Proof.
  unfold indexed_posts, exclude_deleted.
  rewrite !list_filter_filter. apply list_filter_iff. tauto.
Qed.

Lemma elem_of_enumerate_exists docs d :
  d ∈ docs → ∃ n, (n, d) ∈ enumerate 0 docs.
Proof.
  intros [n Hn]%list_elem_of_lookup. exists n.
  apply elem_of_enumerate. split; [lia|]. by rewrite Nat.sub_0_r.
Qed.

(** The committed index after an update run, without document numbers. *)
Lemma index_posts_update_docs fs posts dir name toc :
  fs !! (dir, name) = Some toc →
  toc_schema toc = get_schema →
  index_posts fs posts false dir name
  = Ok (<[(dir, name) :=
            mkTOC get_schema
              (drop_first_of (list_to_set (Post.uid <$> indexed_posts posts))
                 (toc_docs toc)
               ++ (document <$> indexed_posts posts))]> fs).
Proof.
  intros Hfs Hsch. rewrite (index_posts_update _ _ _ _ _ Hfs), Hsch.
  rewrite (surviving_drop_first _ _ _ true); [done|].
  rewrite Hsch. apply get_schema_uid.
Qed.

(** X1: an update run on an index with the schema of [get_schema] commits
    the old documents less, for every uid of an indexed post, the first
    document of that uid, followed by the documents of the indexed posts
    in batch order. *)
Theorem update_run_committed_documents fs posts dir name toc :
  fs !! (dir, name) = Some toc →
  toc_schema toc = get_schema →
  docs_after (index_posts fs posts false dir name) dir name
  = Some (drop_first_of (list_to_set (Post.uid <$> indexed_posts posts))
            (toc_docs toc)
          ++ (document <$> indexed_posts posts)).
Proof.
  intros Hfs Hsch. rewrite (index_posts_update_docs _ _ _ _ _ Hfs Hsch).
  unfold docs_after. by rewrite lookup_insert_eq.
Qed.

(** An index with two documents of "p1" around one of "c1", updated with
    a new version of "p1". *)
Lemma update_run_committed_documents_witness :
  docs_after
    (index_posts
       (index_of [document (question "alpha"); document comment;
                  document (question "gamma")])
       [question "beta"] false "index" "main") "index" "main"
  = Some (drop_first_of (list_to_set (Post.uid <$> indexed_posts [question "beta"]))
            (toc_docs (mkTOC get_schema
                         [document (question "alpha"); document comment;
                          document (question "gamma")]))
          ++ (document <$> indexed_posts [question "beta"])).
Proof.
  apply (update_run_committed_documents
           (index_of [document (question "alpha"); document comment;
                      document (question "gamma")])
           [question "beta"] "index" "main"
           (mkTOC get_schema [document (question "alpha"); document comment;
                              document (question "gamma")])).
  - reflexivity.
  - reflexivity.
Defined.

(** X2: an update run leaves the documents whose uid no indexed post of
    the batch carries exactly as they were, in their order. *)
Theorem update_run_keeps_other_documents fs posts dir name toc :
  fs !! (dir, name) = Some toc →
  toc_schema toc = get_schema →
  ∃ toc',
    index_posts fs posts false dir name = Ok (<[(dir, name) := toc']> fs) ∧
    filter (λ d, Doc.uid d ∉ Post.uid <$> indexed_posts posts) (toc_docs toc')
    = filter (λ d, Doc.uid d ∉ Post.uid <$> indexed_posts posts) (toc_docs toc).
Proof.
  intros Hfs Hsch. eexists. split; [by apply index_posts_update_docs|].
  cbn [toc_docs]. rewrite filter_app.
  rewrite (filter_none _ (document <$> _)).
  2:{ apply Forall_forall. intros d (post & -> & Hpost)%list_elem_of_fmap Hnot.
      apply Hnot. by apply (list_elem_of_fmap_2 Post.uid). }
  rewrite app_nil_r.
  rewrite !(list_filter_iff
              (λ d, Doc.uid d ∉ Post.uid <$> indexed_posts posts)
              (λ d, Doc.uid d ∉ (list_to_set (Post.uid <$> indexed_posts posts)
                                   : gset string)))
    by (intros d; by rewrite elem_of_list_to_set).
  apply drop_first_of_others.
Qed.

Lemma update_run_keeps_other_documents_witness :
  ∃ toc',
    index_posts (index_of [document comment; document (question "alpha")])
      [question "beta"] false "index" "main"
    = Ok (<[("index", "main") := toc']>
            (index_of [document comment; document (question "alpha")])) ∧
    filter (λ d, Doc.uid d ∉ Post.uid <$> indexed_posts [question "beta"])
      (toc_docs toc')
    = filter (λ d, Doc.uid d ∉ Post.uid <$> indexed_posts [question "beta"])
        (toc_docs (mkTOC get_schema
                     [document comment; document (question "alpha")])).
Proof.
  apply (update_run_keeps_other_documents
           (index_of [document comment; document (question "alpha")])
           [question "beta"] "index" "main"
           (mkTOC get_schema [document comment; document (question "alpha")])).
  - reflexivity.
  - reflexivity.
Defined.

(** X3: two update runs, each committed, give the same index as one
    update run on the concatenated batch, provided no uid is indexed in
    both parts. *)
Theorem update_runs_compose fs posts1 posts2 dir name toc :
  fs !! (dir, name) = Some toc →
  toc_schema toc = get_schema →
  (∀ post1 post2, post1 ∈ indexed_posts posts1 → post2 ∈ indexed_posts posts2 →
     Post.uid post1 ≠ Post.uid post2) →
  index_runs fs [(posts1, false); (posts2, false)] dir name
  = index_posts fs (posts1 ++ posts2) false dir name.
Proof.
  intros Hfs Hsch Hdis. cbn [index_runs].
  rewrite (index_posts_update_docs fs (posts1 ++ posts2) _ _ _ Hfs Hsch).
  rewrite (index_posts_update_docs fs posts1 _ _ _ Hfs Hsch).
  unfold mbind, result_bind.
  erewrite index_posts_update_docs; [|apply lookup_insert_eq|done].
  rewrite insert_insert_eq. cbn [toc_docs]. do 3 f_equal.
  rewrite indexed_posts_app, !fmap_app, list_to_set_app_L, app_assoc. f_equal.
  set (U1 := list_to_set (Post.uid <$> indexed_posts posts1) : gset string).
  set (U2 := list_to_set (Post.uid <$> indexed_posts posts2) : gset string).
  assert (U1 ## U2) as HU.
  { intros u (p1 & -> & Hp1)%elem_of_list_to_set%list_elem_of_fmap
             (p2 & Heq & Hp2)%elem_of_list_to_set%list_elem_of_fmap.
    by apply (Hdis p1 p2). }
  rewrite drop_first_of_app, (drop_first_of_twice U1 U2) by done. f_equal.
  apply drop_first_of_disjoint.
  intros d (p1 & -> & Hp1)%list_elem_of_fmap [Hu2 _]%elem_of_difference.
  apply (HU (Post.uid p1)); [|done].
  apply elem_of_list_to_set. by apply (list_elem_of_fmap_2 Post.uid).
Qed.

Lemma update_runs_compose_witness :
  index_runs (index_of [document (question "alpha"); document comment])
    [([question "beta"], false); ([comment], false)] "index" "main"
  = index_posts (index_of [document (question "alpha"); document comment])
      ([question "beta"] ++ [comment]) false "index" "main".
Proof.
  apply (update_runs_compose
           (index_of [document (question "alpha"); document comment])
           [question "beta"] [comment] "index" "main"
           (mkTOC get_schema [document (question "alpha"); document comment])).
  - reflexivity.
  - reflexivity.
  - intros post1 post2 Hp1 Hp2.
    apply list_elem_of_singleton in Hp1 as ->.
    apply list_elem_of_singleton in Hp2 as ->. discriminate.
Defined.

(** ** Batches *)

Lemma indexed_posts_Permutation posts1 posts2 :
  posts1 ≡ₚ posts2 → indexed_posts posts1 ≡ₚ indexed_posts posts2.
Proof. intros Hperm. unfold indexed_posts, exclude_deleted. by rewrite Hperm. Qed.

Lemma stale_docnums_Permutation ix uids1 uids2 :
  uids1 ≡ₚ uids2 → stale_docnums ix uids1 = stale_docnums ix uids2.
Proof.
  intros Hperm. unfold stale_docnums. apply set_eq. intros n.
  rewrite !elem_of_union_list. by setoid_rewrite Hperm.
Qed.

(** X4: the order of the posts in a batch decides only the order of the
    added documents: two runs on permuted batches commit the same
    surviving documents and the same added documents up to order. *)
Theorem batch_order_only_permutes fs posts1 posts2 create_new dir name :
  posts1 ≡ₚ posts2 →
  ∃ sch kept added1 added2,
    index_posts fs posts1 create_new dir name
      = Ok (<[(dir, name) := mkTOC sch (kept ++ added1)]> fs) ∧
    index_posts fs posts2 create_new dir name
      = Ok (<[(dir, name) := mkTOC sch (kept ++ added2)]> fs) ∧
    added1 = document <$> indexed_posts posts1 ∧
    added2 = document <$> indexed_posts posts2 ∧
    added1 ≡ₚ added2.
Proof.
  intros Hperm.
  pose proof (indexed_posts_Permutation _ _ Hperm) as Hind.
  destruct (decide (create_new = true ∨ fs !! (dir, name) = None)) as [Hnew|Hupd].
  - exists get_schema, [], (document <$> indexed_posts posts1),
      (document <$> indexed_posts posts2).
    split_and!; [by apply index_posts_create..|done|done|by rewrite Hind].
  - destruct create_new; [tauto|].
    destruct (fs !! (dir, name)) as [toc|] eqn:Hfs; [|tauto].
    eexists (toc_schema toc), _, _, _.
    split_and!; [by apply index_posts_update| |done|done|by rewrite Hind].
    rewrite (index_posts_update _ _ _ _ _ Hfs).
    by rewrite (stale_docnums_Permutation _ _ (Post.uid <$> indexed_posts posts1))
      by (by rewrite Hind).
Qed.

Lemma batch_order_only_permutes_witness :
  ∃ sch kept added1 added2,
    index_posts (index_of [document comment]) [question "beta"; comment]
      false "index" "main"
      = Ok (<[("index", "main") := mkTOC sch (kept ++ added1)]>
              (index_of [document comment])) ∧
    index_posts (index_of [document comment]) [comment; question "beta"]
      false "index" "main"
      = Ok (<[("index", "main") := mkTOC sch (kept ++ added2)]>
              (index_of [document comment])) ∧
    added1 = document <$> indexed_posts [question "beta"; comment] ∧
    added2 = document <$> indexed_posts [comment; question "beta"] ∧
    added1 ≡ₚ added2.
Proof.
  apply (batch_order_only_permutes (index_of [document comment])
           [question "beta"; comment] [comment; question "beta"]
           false "index" "main").
  apply Permutation_swap.
Defined.

(** X5: posts that are deleted or have no root take no part in a run:
    the run is the run on the batch without them, so it neither adds a
    document for them nor deletes the one they have in the index. *)
Theorem run_ignores_unindexed_posts fs posts create_new dir name :
  index_posts fs posts create_new dir name
  = index_posts fs (indexed_posts posts) create_new dir name.
Proof.
  destruct (decide (create_new = true ∨ fs !! (dir, name) = None)) as [Hnew|Hupd].
  - by rewrite !index_posts_create, indexed_posts_idemp by done.
  - destruct create_new; [tauto|].
    destruct (fs !! (dir, name)) as [toc|] eqn:Hfs; [|tauto].
    by rewrite !(index_posts_update _ _ _ _ _ Hfs), indexed_posts_idemp.
Qed.

(** X6: an update run whose batch holds no post to index (it is empty, or
    all its posts are deleted or without a root) leaves the storage as it
    was. *)
Theorem update_run_without_indexed_posts fs posts dir name toc :
  fs !! (dir, name) = Some toc →
  indexed_posts posts = [] →
  index_posts fs posts false dir name = Ok fs.
Proof.
  intros Hfs Hnone. rewrite (index_posts_update _ _ _ _ _ Hfs), Hnone.
  unfold stale_docnums. cbn [fmap list_fmap union_list foldr].
  rewrite surviving_none, app_nil_r. f_equal.
  apply insert_id. rewrite Hfs. by destruct toc.
Qed.

Lemma update_run_without_indexed_posts_witness :
  index_posts (index_of [document (question "alpha")])
    [deleted (question "beta"); rootless (question "gamma")]
    false "index" "main"
  = Ok (index_of [document (question "alpha")]).
Proof.
  apply (update_run_without_indexed_posts
           (index_of [document (question "alpha")])
           [deleted (question "beta"); rootless (question "gamma")]
           "index" "main" (mkTOC get_schema [document (question "alpha")])).
  - reflexivity.
  - reflexivity.
Defined.

(** X7: with [create_new], or when no index exists at the location, a run
    builds the index afresh under the schema of [get_schema]: whatever
    was committed there is gone, and the index holds one document per
    indexed post of the batch, in batch order, with no delete step (two
    posts of one uid give two documents). *)
Theorem rebuild_replaces_the_index fs posts create_new dir name :
  create_new = true ∨ fs !! (dir, name) = None →
  ∃ fs',
    index_posts fs posts create_new dir name = Ok fs' ∧
    fs' !! (dir, name)
      = Some (mkTOC get_schema (document <$> indexed_posts posts)) ∧
    ∀ u, indexed_count u fs' dir name = post_count u (indexed_posts posts).
Proof.
  intros Hnew. eexists. split; [by apply index_posts_create|].
  split; [by rewrite lookup_insert_eq|].
  intros u. unfold indexed_count. rewrite lookup_insert_eq. cbn [toc_docs].
  apply uid_count_document.
Qed.

Lemma rebuild_replaces_the_index_witness :
  ∃ fs',
    index_posts (index_of [document comment; document (question "alpha")])
      [question "beta"; question "gamma"; deleted comment] true "index" "main"
    = Ok fs' ∧
    fs' !! ("index", "main")
      = Some (mkTOC get_schema
                (document <$> indexed_posts
                   [question "beta"; question "gamma"; deleted comment])) ∧
    ∀ u, indexed_count u fs' "index" "main"
         = post_count u (indexed_posts
                           [question "beta"; question "gamma"; deleted comment]).
Proof.
  apply (rebuild_replaces_the_index
           (index_of [document comment; document (question "alpha")])
           [question "beta"; question "gamma"; deleted comment]
           true "index" "main").
  left. reflexivity.
Defined.

(** ** Lookups *)

(** X8: for a uid that no committed document carries, [delete_existing]
    finds nothing and hands the writer back unchanged, without an
    error. *)
Theorem delete_existing_unknown_uid ix w uid :
  schema ix = get_schema →
  uid_count uid (toc_docs (ix_toc ix)) = 0 →
  delete_existing ix w uid = w.
Proof.
  intros Hsch Hcount. rewrite delete_existing_eq.
  destruct ix as [dir name toc]. unfold schema in Hsch.
  cbn [ix_toc] in Hsch, Hcount.
  rewrite stale_first_docnum.
  rewrite (uid_count_hits toc true) in Hcount
    by (rewrite Hsch; apply get_schema_uid).
  apply nil_length_inv in Hcount. rewrite Hcount. cbn.
  destruct w. cbn. by rewrite (left_id_L ∅ (∪)).
Qed.

Lemma delete_existing_unknown_uid_witness :
  delete_existing
    (mkIndex "index" "main" (mkTOC get_schema [document (question "alpha")]))
    (add_index comment
       (writer (mkIndex "index" "main"
                  (mkTOC get_schema [document (question "alpha")]))))
    "c1"
  = add_index comment
      (writer (mkIndex "index" "main"
                 (mkTOC get_schema [document (question "alpha")]))).
Proof.
  apply (delete_existing_unknown_uid
           (mkIndex "index" "main" (mkTOC get_schema [document (question "alpha")]))
           (add_index comment
              (writer (mkIndex "index" "main"
                         (mkTOC get_schema [document (question "alpha")]))))
           "c1").
  - reflexivity.
  - reflexivity.
Defined.

(** X9: within a transaction, looking a uid up a second time deletes
    nothing more, and lookups for two uids can be made in either order:
    what is deleted depends on the set of uids looked up alone. *)
Theorem delete_existing_idempotent_and_commutes ix w uid1 uid2 :
  delete_existing ix (delete_existing ix w uid1) uid1 = delete_existing ix w uid1 ∧
  delete_existing ix (delete_existing ix w uid1) uid2
  = delete_existing ix (delete_existing ix w uid2) uid1.
Proof.
  rewrite !delete_existing_eq. cbn [w_index w_deleted w_added]. split.
  - by rewrite (assoc_L (∪)), (idemp_L (∪)).
  - by rewrite !(assoc_L (∪)), (comm_L (∪) (stale ix uid2)).
Qed.

(** X10: after a run on a storage whose index at the location, if any,
    has the schema of [get_schema], [delete_existing] on the committed
    index deletes, for every indexed post of the batch, a document that
    carries the post's uid; and the next update run that indexes the uid
    takes one document of it out for the documents it adds. *)
Theorem indexed_post_is_replaced_by_next_run fs posts create_new dir name post :
  (∀ toc, fs !! (dir, name) = Some toc → toc_schema toc = get_schema) →
  post ∈ indexed_posts posts →
  ∃ fs' toc',
    index_posts fs posts create_new dir name = Ok fs' ∧
    fs' !! (dir, name) = Some toc' ∧
    (∀ w, ∃ n d,
       toc_docs toc' !! n = Some d ∧ Doc.uid d = Post.uid post ∧
       delete_existing (mkIndex dir name toc') w (Post.uid post)
       = delete_document w n) ∧
    (∀ posts2, Post.uid post ∈ Post.uid <$> indexed_posts posts2 →
       ∃ fs'',
         index_posts fs' posts2 false dir name = Ok fs'' ∧
         indexed_count (Post.uid post) fs'' dir name + 1
         = indexed_count (Post.uid post) fs' dir name
           + post_count (Post.uid post) (indexed_posts posts2)).
Proof.
  intros Hsch Hpost.
  assert (∃ toc', index_posts fs posts create_new dir name
                    = Ok (<[(dir, name) := toc']> fs) ∧
                  toc_schema toc' = get_schema ∧
                  document post ∈ toc_docs toc') as (toc' & Hrun & Hsch' & Hdoc).
  { destruct (decide (create_new = true ∨ fs !! (dir, name) = None)) as [Hnew|Hupd].
    - eexists. split; [by apply index_posts_create|]. split; [done|].
      by apply list_elem_of_fmap_2.
    - destruct create_new; [tauto|].
      destruct (fs !! (dir, name)) as [toc|] eqn:Hfs; [|tauto].
      eexists. split; [by apply index_posts_update|].
      cbn [toc_schema toc_docs]. split; [by apply Hsch|].
      apply elem_of_app. right. by apply list_elem_of_fmap_2. }
  assert (toc_schema toc' !! "uid" = Some (ID true)) as Huid
    by (rewrite Hsch'; apply get_schema_uid).
  exists (<[(dir, name) := toc']> fs), toc'.
  split_and!; [done|apply lookup_insert_eq| |].
  - intros w. destruct (elem_of_enumerate_exists _ _ Hdoc) as [n Hn].
    assert ((n, document post) ∈ uid_hits toc' (Post.uid post)) as Hhit
      by by apply (elem_of_uid_hits toc' true).
    rewrite delete_existing_eq, stale_first_docnum.
    destruct (uid_hits toc' (Post.uid post)) as [|[n' d'] hs] eqn:Hhits;
      [by apply elem_of_nil in Hhit|].
    assert ((n', d') ∈ uid_hits toc' (Post.uid post)) as Hfirst
      by (rewrite Hhits; apply list_elem_of_here).
    apply (elem_of_uid_hits toc' true Huid) in Hfirst as [Hd' Hn'].
    apply elem_of_enumerate in Hn' as [_ Hn']. rewrite Nat.sub_0_r in Hn'.
    by exists n', d'.
  - intros posts2 Hposts2.
    destruct (index_posts_update_count (<[(dir, name) := toc']> fs) posts2
                dir name toc' true) as (toc'' & Hrun2 & _ & _ & Hcount);
      [apply lookup_insert_eq|done|].
    eexists. split; [exact Hrun2|].
    unfold indexed_count. rewrite !lookup_insert_eq, Hcount.
    rewrite decide_True by done.
    pose proof (uid_count_elem_of (Post.uid post) (toc_docs toc') (document post)
                  Hdoc eq_refl).
    lia.
Qed.

(** A run that indexes a comment and a new version of a question; the
    comment's document is then the one [delete_existing] deletes for its
    uid, and the next run on the comment leaves one document of it. *)
Lemma indexed_post_is_replaced_by_next_run_witness :
  ∃ fs' toc',
    index_posts (index_of [document (question "alpha")])
      [comment; question "beta"] false "index" "main" = Ok fs' ∧
    fs' !! ("index", "main") = Some toc' ∧
    (∀ w, ∃ n d,
       toc_docs toc' !! n = Some d ∧ Doc.uid d = Post.uid comment ∧
       delete_existing (mkIndex "index" "main" toc') w (Post.uid comment)
       = delete_document w n) ∧
    (∀ posts2, Post.uid comment ∈ Post.uid <$> indexed_posts posts2 →
       ∃ fs'',
         index_posts fs' posts2 false "index" "main" = Ok fs'' ∧
         indexed_count (Post.uid comment) fs'' "index" "main" + 1
         = indexed_count (Post.uid comment) fs' "index" "main"
           + post_count (Post.uid comment) (indexed_posts posts2)).
Proof.
  apply (indexed_post_is_replaced_by_next_run
           (index_of [document (question "alpha")])
           [comment; question "beta"] false "index" "main" comment).
  - intros toc Htoc. injection Htoc as <-. reflexivity.
  - vm_compute. apply list_elem_of_here.
Defined.

(** ** Queries *)

Lemma get_schema_content :
  get_schema !! "content" = Some (NGRAMWORDS true tokenizer).
Proof. reflexivity. Qed.

Lemma hits_nil s : hits s [] = [].
Proof.
  unfold hits. apply filter_none, Forall_forall. intros nd _.
  unfold matches. rewrite bool_decide_eq_false_2; [done|].
  rewrite Exists_nil. tauto.
Qed.

Lemma tokenizer_stop_words q :
  Forall (λ t, t ∈ STOP) (SpaceSeparatedTokenizer q) → tokenizer q = [].
Proof.
  intros Hstop. unfold tokenizer, StopFilter. apply filter_none.
  eapply Forall_impl; [done|]. by intros t Ht Hnot.
Qed.

(** X12: a query string made of stop words only (the empty string among
    them) finds nothing in the title and content fields: on an index
    with the schema of [get_schema], [query] returns an empty result
    set. *)
Theorem stop_word_query_finds_nothing
    SIMILAR_FEED_COUNT collector fs q fields dir name kwargs toc options :
  fs !! (dir, name) = Some toc →
  toc_schema toc = get_schema →
  kwargs !! "limit" = None →
  collector kwargs = Some options →
  options [] = [] →
  Forall (λ f, f = "title" ∨ f = "content") fields →
  Forall (λ t, t ∈ STOP) (SpaceSeparatedTokenizer q) →
  ∃ results,
    query SIMILAR_FEED_COUNT collector fs q fields dir name kwargs = Ok results ∧
    items results = [].
Proof.
  intros Hfs Hsch Hlimit Hopts Hnil Hfields Hstop.
  assert (parse fields get_schema q = []) as Hparse.
  { unfold parse. induction Hfields as [|f fields [-> | ->] _ IH]; [done|..].
    - cbn [mbind list_bind]. rewrite IH, get_schema_title. cbn [analyze].
      by rewrite tokenizer_stop_words.
    - cbn [mbind list_bind]. rewrite IH, get_schema_content. cbn [analyze].
      by rewrite tokenizer_stop_words. }
  eexists. unfold query. rewrite (open_index_Some _ _ _ toc Hfs).
  rewrite decide_False by (rewrite Hlimit; by intros [? ?]).
  rewrite Hopts. split; [done|].
  unfold schema, searcher, search. cbn [items ix_toc].
  rewrite Hsch, Hparse, hits_nil, Hnil. apply take_nil.
Qed.

Lemma stop_word_query_finds_nothing_witness :
  ∃ results,
    query 30 plain_collector
      (index_of [document (question "the who where"); document comment])
      "the who where" ["title"; "content"] "index" "main" ∅ = Ok results ∧
    items results = [].
Proof.
  apply (stop_word_query_finds_nothing 30 plain_collector
           (index_of [document (question "the who where"); document comment])
           "the who where" ["title"; "content"] "index" "main" ∅
           (mkTOC get_schema [document (question "the who where"); document comment])
           id).
  - reflexivity.
  - reflexivity.
  - reflexivity.
  - reflexivity.
  - reflexivity.
  - apply Forall_cons. split; [by left|].
    apply Forall_cons. split; [by right|]. apply Forall_nil_2.
  - vm_compute. repeat constructor; by apply (bool_decide_unpack _).
Defined.

(** * Progress reporting *)

Lemma mod_500_of_nat (m : nat) : (Z.of_nat m `mod` 500 = 0)%Z ↔ m mod 500 = 0.
Proof.
  pose proof (Nat2Z.inj_mod m 500) as Hm. change (Z.of_nat 500) with 500%Z in Hm.
  rewrite <- Hm. lia.
Qed.

Lemma div_500_step (m : nat) :
  S m mod 500 ≠ 0 → S m / 500 = m / 500.
Proof.
  intros H.
  pose proof (Nat.div_mod_eq m 500). pose proof (Nat.div_mod_eq (S m) 500).
  pose proof (Nat.mod_upper_bound m 500). pose proof (Nat.mod_upper_bound (S m) 500).
  lia.
Qed.

Lemma div_500_multiple (m : nat) :
  S m mod 500 = 0 → S m / 500 = S (m / 500) ∧ S m = 500 * (m / 500 + 1).
Proof.
  intros H.
  pose proof (Nat.div_mod_eq m 500). pose proof (Nat.div_mod_eq (S m) 500).
  pose proof (Nat.mod_upper_bound m 500). pose proof (Nat.mod_upper_bound (S m) 500).
  lia.
Qed.

Lemma progress_lines_S {T} (clock : nat → T) t0 j :
  progress_lines clock t0 (S j)
  = progress_lines clock t0 j
    ++ [mkLine ("... " +:+ pretty (500 * (Z.of_nat j + 1))%Z +:+ " posts indexed")
          (clock (t0 + j)) (clock (t0 + j + 1))].
Proof. unfold progress_lines. by rewrite seq_S, fmap_app. Qed.

(** The loop after [m] posts: [j = m / 500] lines are printed and the
    clock was read [j + 1] times. *)
Lemma progress_loop_lines {T} (clock : nat → T) posts m t0 lines0 :
  progress_loop clock (clock (t0 + m / 500)) (Z.of_nat (S m)) posts
    (mkWorld (t0 + 1 + m / 500) (lines0 ++ progress_lines clock t0 (m / 500)))
  = inr (clock (t0 + (m + length posts) / 500),
         mkWorld (t0 + 1 + (m + length posts) / 500)
           (lines0 ++ progress_lines clock t0 ((m + length posts) / 500))).
Proof.
  revert m. induction posts as [|post posts IH]; intros m.
  - cbn [progress_loop length]. by rewrite Nat.add_0_r.
  - cbn [progress_loop length]. unfold progress.
    rewrite decide_False by done.
    replace (m + S (length posts)) with (S m + length posts) by lia.
    replace (Z.of_nat (S m) + 1)%Z with (Z.of_nat (S (S m))) by lia.
    case_decide as Hmod.
    + apply mod_500_of_nat, div_500_multiple in Hmod as [Hdiv Hmul].
      unfold elapsed, time, print. cbn [ticks printed].
      rewrite <- IH, Hdiv, progress_lines_S, (assoc_L (++)).
      generalize dependent (m / 500). intros j Hdiv Hmul.
      replace (500 * (Z.of_nat j + 1))%Z with (Z.of_nat (S m)) by (clear -Hmul; lia).
      replace (t0 + S j) with (t0 + 1 + j) by lia.
      replace (t0 + j + 1) with (t0 + 1 + j) by lia.
      by replace (t0 + 1 + S j) with (S (t0 + 1 + j)) by lia.
    + rewrite mod_500_of_nat in Hmod. apply div_500_step in Hmod.
      by rewrite <- IH, Hmod.
Qed.

(** X14: what a run of [index_posts] prints.  With [n] posts of the batch
    not deleted (those without a root count), it prints one progress line
    for each of the [n / 500] multiples of 500 up to [n], each timed from
    the line before (the first from the start of the run), and then the
    closing line, which is timed from a timer made after the loop: it
    reports the time since the loop ended, not the time of the run. *)
Theorem index_posts_console {T} (clock : nat → T) posts w :
  index_posts_prints clock posts w
  = inr (mkWorld (ticks w + length (exclude_deleted posts) / 500 + 3)
           (printed w
            ++ progress_lines clock (ticks w) (length (exclude_deleted posts) / 500)
            ++ [mkLine ("Created/updated index for "
                        +:+ pretty (length (exclude_deleted posts)))
                  (clock (ticks w + length (exclude_deleted posts) / 500 + 1))
                  (clock (ticks w + length (exclude_deleted posts) / 500 + 2))])).
Proof.
  unfold index_posts_prints, timer_func, time.
  pose proof (progress_loop_lines clock (exclude_deleted posts) 0 (ticks w)
                (printed w)) as Hloop.
  change (0 / 500) with 0 in Hloop.
  rewrite !Nat.add_0_r, Nat.add_0_l in Hloop.
  replace (ticks w + 1) with (S (ticks w)) in Hloop by lia.
  cbn [progress_lines seq fmap list_fmap] in Hloop. rewrite app_nil_r in Hloop.
  change (Z.of_nat 1) with 1%Z in Hloop. rewrite Hloop.
  unfold elapsed, time, print. cbn [ticks printed].
  generalize (length (exclude_deleted posts) / 500). intros j.
  clear Hloop.
  replace (S (S (S (ticks w) + j))) with (ticks w + j + 3) by lia.
  replace (S (S (ticks w) + j)) with (ticks w + j + 2) by lia.
  replace (S (ticks w) + j) with (ticks w + j + 1) by lia.
  by rewrite <- (assoc_L (++)).
Qed.

(** * Notification pruning *)

Section Notes.
Implicit Types (notes : list Note.t) (target user : Z) (maxcount : nat).

Local Instance newest_first_total : Total newest_first.
Proof. intros a b. unfold newest_first. lia. Qed.

Local Instance newest_first_trans : Transitive newest_first.
Proof. intros a b c. unfold newest_first. lia. Qed.

(** In a list sorted newest first with distinct ids, the notes that are
    not older than the one at index [m] are the first [m + 1]. *)
Lemma newest_first_take (s : list Note.t) m last_valid :
  StronglySorted newest_first s → NoDup (Note.id <$> s) →
  s !! m = Some last_valid →
  filter (λ note, ¬ (Note.id note < Note.id last_valid)%Z) s = take (S m) s.
Proof.
  intros Hs. revert m.
  induction Hs as [|x s Hs IH Hx]; intros m Hnd Hm; [done|].
  rewrite fmap_cons, NoDup_cons in Hnd. destruct Hnd as [Hx' Hnd].
  rewrite Forall_forall in Hx.
  destruct m as [|m]; simplify_eq/=.
  - rewrite filter_cons_True by lia. f_equal. rewrite take_0.
    apply filter_none, Forall_forall. intros y Hy.
    assert (Note.id y ≠ Note.id last_valid).
    { intros Heq. apply Hx'. rewrite <- Heq. by apply list_elem_of_fmap_2. }
    apply Hx in Hy. unfold newest_first in Hy. lia.
  - pose proof (Hx _ (list_elem_of_lookup_2 _ _ _ Hm)) as Hle.
    unfold newest_first in Hle.
    rewrite filter_cons_True by lia. f_equal. by apply IH.
Qed.

Lemma NoDup_received_ids target notes :
  NoDup (Note.id <$> notes) →
  NoDup (Note.id <$> merge_sort newest_first (filter (received target) notes)).
Proof.
  intros Hnd. rewrite merge_sort_Permutation.
  eapply sublist_NoDup; [exact Hnd|]. apply fmap_sublist, sublist_filter.
Qed.

(** The received notes that [remove_notes] leaves, given the row it read. *)
Lemma remove_notes_received target notes last_valid :
  filter (received target)
    (filter (λ note, ¬ (Note.target note = target ∧
                        (Note.id note < Note.id last_valid)%Z ∧
                        Note.sender note ≠ target)) notes)
  = filter (λ note, ¬ (Note.id note < Note.id last_valid)%Z)
      (filter (received target) notes).
Proof.
  rewrite !list_filter_filter. apply list_filter_iff.
  intros note. unfold received. lia.
Qed.

Lemma remove_notes_others target user notes last_valid :
  user ≠ target →
  filter (received user)
    (filter (λ note, ¬ (Note.target note = target ∧
                        (Note.id note < Note.id last_valid)%Z ∧
                        Note.sender note ≠ target)) notes)
  = filter (received user) notes.
Proof.
  intros Hne. rewrite list_filter_filter. apply list_filter_iff.
  intros note. unfold received. lia.
Qed.

Lemma remove_notes_count target maxcount notes notes' :
  NoDup (Note.id <$> notes) →
  remove_notes target maxcount notes = inr notes' →
  length (filter (received target) notes') = S maxcount.
Proof.
  unfold remove_notes. intros Hnd Hrun.
  destruct (_ !! maxcount) as [last_valid|] eqn:Hlast; simplify_eq.
  rewrite remove_notes_received.
  rewrite <- (merge_sort_Permutation newest_first (filter (received target) notes)).
  rewrite (newest_first_take _ maxcount last_valid);
    [|apply (StronglySorted_merge_sort _)|by apply NoDup_received_ids|done].
  apply lookup_lt_Some in Hlast. rewrite length_take. lia.
Qed.

(** The row [remove_notes] reads exists exactly when the user received
    more than [maxcount] notes. *)
Lemma last_valid_is_Some target maxcount notes :
  is_Some (merge_sort newest_first (filter (received target) notes) !! maxcount)
  ↔ maxcount < length (filter (received target) notes).
Proof.
  rewrite lookup_lt_is_Some.
  assert (length (merge_sort newest_first (filter (received target) notes))
          = length (filter (received target) notes)) as ->
    by (by rewrite merge_sort_Permutation).
  done.
Qed.

(** With exactly [maxcount + 1] received notes, nothing is deleted. *)
Lemma remove_notes_exact target maxcount notes :
  NoDup (Note.id <$> notes) →
  length (filter (received target) notes) = S maxcount →
  remove_notes target maxcount notes = inr notes.
Proof.
  intros Hnd Hcount. unfold remove_notes.
  destruct (proj2 (last_valid_is_Some target maxcount notes)) as [last_valid Hlast];
    [lia|].
  rewrite Hlast. f_equal. apply filter_all, Forall_forall.
  intros note Hnote (Htarget & Hid & Hsender).
  assert (note ∈ filter (λ note, ¬ (Note.id note < Note.id last_valid)%Z)
                   (merge_sort newest_first (filter (received target) notes)))
    as Hin.
  { rewrite (newest_first_take _ maxcount last_valid);
      [|apply (StronglySorted_merge_sort _)|by apply NoDup_received_ids|done].
    rewrite take_ge by (rewrite merge_sort_Permutation; lia).
    rewrite merge_sort_Permutation. by apply list_elem_of_filter. }
  apply list_elem_of_filter in Hin as [Hin _]. lia.
Qed.

(** One run of [reduce_notes]: it returns, the table it leaves is part of
    the one it found, every user in [users] over the quota is left with
    [maxcount + 1] received notes and every other count is unchanged, and
    a note that is gone was received by a user over the quota. *)
Lemma reduce_notes_run users maxcount notes :
  NoDup (Note.id <$> notes) →
  ∃ notes',
    reduce_notes users maxcount notes = inr notes' ∧
    notes' `sublist_of` notes ∧
    (∀ user,
       length (filter (received user) notes')
       = if decide (user ∈ users ∧
                    2 * maxcount < length (filter (received user) notes))
         then S maxcount
         else length (filter (received user) notes)) ∧
    (∀ note, note ∈ notes → note ∉ notes' →
       ∃ user, user ∈ users ∧ received user note ∧
               2 * maxcount < length (filter (received user) notes)).
Proof.
  revert notes. induction users as [|user users IH]; intros notes Hnd.
  { exists notes. split_and!; [done|done| |done].
    intros user. rewrite decide_False; [done|]. rewrite elem_of_nil. tauto. }
  cbn [reduce_notes]. case_decide as Hquota.
  - destruct (proj2 (last_valid_is_Some user maxcount notes)) as [last_valid Hlast];
      [lia|].
    pose proof (remove_notes_count user maxcount notes) as Hcount.
    unfold remove_notes in *. rewrite Hlast in *.
    specialize (Hcount _ Hnd eq_refl).
    set (notes1 := filter (λ note, ¬ _) notes) in *.
    assert (notes1 `sublist_of` notes) as Hsub by apply sublist_filter.
    destruct (IH notes1) as (notes' & Hrun & Hsub' & Hcounts & Hgone).
    { eapply sublist_NoDup; [exact Hnd|]. by apply fmap_sublist. }
    exists notes'. split_and!; [done|by etrans| |].
    + intros user'. rewrite Hcounts. destruct (decide (user' = user)) as [->|Hne].
      * rewrite Hcount. rewrite (decide_True (P := user ∈ user :: users ∧ _))
          by (split; [left|done]).
        by case_decide.
      * unfold notes1. rewrite (remove_notes_others user user') by done.
        apply decide_ext. rewrite elem_of_cons. tauto.
    + intros note Hnote Hnote'.
      destruct (decide (Note.target note = user ∧
                        (Note.id note < Note.id last_valid)%Z ∧
                        Note.sender note ≠ user)) as [Hout|Hin].
      2: { assert (note ∈ notes1) as Hin' by by apply list_elem_of_filter.
        destruct (Hgone note Hin' Hnote') as (user' & Huser' & Hrcv & Hover).
        exists user'. split_and!; [by right|done|].
        destruct (decide (user' = user)) as [->|Hne]; [done|].
        unfold notes1 in Hover.
        by rewrite (remove_notes_others user user') in Hover by done. }
      exists user. split_and!; [left|..|done]. unfold received. tauto.
  - destruct (IH notes Hnd) as (notes' & Hrun & Hsub' & Hcounts & Hgone).
    exists notes'. split_and!; [done|done| |].
    + intros user'. rewrite Hcounts. apply decide_ext. rewrite elem_of_cons.
      split; [tauto|]. intros [[->|?] ?]; [lia|tauto].
    + intros note Hnote Hnote'.
      destruct (Hgone note Hnote Hnote') as (user' & ? & ? & ?).
      exists user'. split_and!; [by right|done|done].
Qed.

(** A table in which every user of [users] is within the quota or holds
    exactly [maxcount + 1] received notes is left as it is. *)
Lemma reduce_notes_settled users maxcount notes :
  NoDup (Note.id <$> notes) →
  (∀ user, user ∈ users →
     length (filter (received user) notes) ≤ 2 * maxcount ∨
     length (filter (received user) notes) = S maxcount) →
  reduce_notes users maxcount notes = inr notes.
Proof.
  intros Hnd. induction users as [|user users IH]; intros Husers; [done|].
  cbn [reduce_notes]. case_decide as Hquota.
  - destruct (Husers user) as [?|Hcount]; [left|lia|].
    rewrite remove_notes_exact by done. apply IH.
    intros user' ?. apply Husers. by right.
  - apply IH. intros user' ?. apply Husers. by right.
Qed.

End Notes.

(** X15: [remove_notes] raises [IndexError] exactly when the user
    received at most [maxcount] notes from others; it cannot be called to
    trim a user who is within [maxcount]. *)
Theorem remove_notes_raises_within_maxcount target maxcount notes :
  remove_notes target maxcount notes = inl IndexError
  ↔ length (filter (received target) notes) ≤ maxcount.
Proof.
  pose proof (last_valid_is_Some target maxcount notes) as Hlast.
  unfold remove_notes.
  destruct (_ !! maxcount) as [last_valid|].
  - split; [done|]. intros Hle. destruct Hlast as [Hlast _].
    specialize (Hlast (mk_is_Some _ _ eq_refl)). lia.
  - split; [|done]. intros _. apply Nat.nlt_ge. intros Hlt.
    by apply Hlast, is_Some_None in Hlt.
Qed.

(** X16: on a table of notes with distinct ids, for a user who received
    more than [maxcount] notes from others, [remove_notes] leaves that
    user [maxcount + 1] received notes (one more than [maxcount]); every
    received note it keeps is newer than every note it deletes, and every
    note that the user did not receive from someone else stays, in place. *)
Theorem remove_notes_keeps_newest target maxcount notes :
  NoDup (Note.id <$> notes) →
  maxcount < length (filter (received target) notes) →
  ∃ notes',
    remove_notes target maxcount notes = inr notes' ∧
    notes' `sublist_of` notes ∧
    length (filter (received target) notes') = S maxcount ∧
    filter (λ note, ¬ received target note) notes'
    = filter (λ note, ¬ received target note) notes ∧
    (∀ kept gone,
       kept ∈ notes' → received target kept → gone ∈ notes → gone ∉ notes' →
       (Note.id gone < Note.id kept)%Z).
Proof.
  intros Hnd Hcount.
  apply last_valid_is_Some in Hcount as [last_valid Hlast].
  pose proof (remove_notes_count target maxcount notes) as Hleft.
  unfold remove_notes in *. rewrite Hlast in *.
  eexists. split_and!; [done|apply sublist_filter|by apply Hleft| |].
  - rewrite list_filter_filter. apply list_filter_iff.
    intros note. unfold received. tauto.
  - intros kept gone Hkept [Htarget Hsender] Hgone Hgone'.
    rewrite list_elem_of_filter in Hkept, Hgone'.
    destruct (decide (Note.target gone = target));
      destruct (decide (Note.sender gone = target));
      destruct (decide (Note.id gone < Note.id last_valid)%Z);
      try tauto.
    lia.
Qed.

Lemma remove_notes_keeps_newest_witness :
  ∃ notes',
    remove_notes 7 1 sample_notes = inr notes' ∧
    notes' `sublist_of` sample_notes ∧
    length (filter (received 7) notes') = 2 ∧
    filter (λ note, ¬ received 7 note) notes'
    = filter (λ note, ¬ received 7 note) sample_notes ∧
    (∀ kept gone,
       kept ∈ notes' → received 7 kept → gone ∈ sample_notes → gone ∉ notes' →
       (Note.id gone < Note.id kept)%Z).
Proof.
  apply (remove_notes_keeps_newest 7 1 sample_notes).
  - by apply (bool_decide_unpack _).
  - vm_compute. lia.
Defined.

(** X17: on a table of notes with distinct ids, [reduce_notes] never
    raises.  Every user of the loop who received more than
    [2 * maxcount] notes from others is left with [maxcount + 1] of them,
    every other user's count is unchanged, and a note that is deleted was
    received by a user who was over [2 * maxcount]. *)
Theorem reduce_notes_trims_to_maxcount_plus_one users maxcount notes :
  NoDup (Note.id <$> notes) →
  ∃ notes',
    reduce_notes users maxcount notes = inr notes' ∧
    notes' `sublist_of` notes ∧
    (∀ user,
       length (filter (received user) notes')
       = if decide (user ∈ users ∧
                    2 * maxcount < length (filter (received user) notes))
         then S maxcount
         else length (filter (received user) notes)) ∧
    (∀ note, note ∈ notes → note ∉ notes' →
       ∃ user, user ∈ users ∧ received user note ∧
               2 * maxcount < length (filter (received user) notes)).
Proof. apply reduce_notes_run. Qed.

Lemma reduce_notes_trims_to_maxcount_plus_one_witness :
  ∃ notes',
    reduce_notes [7; 8]%Z 1 sample_notes = inr notes' ∧
    notes' `sublist_of` sample_notes ∧
    (∀ user,
       length (filter (received user) notes')
       = if decide (user ∈ [7; 8]%Z ∧
                    2 * 1 < length (filter (received user) sample_notes))
         then 2
         else length (filter (received user) sample_notes)) ∧
    (∀ note, note ∈ sample_notes → note ∉ notes' →
       ∃ user, user ∈ [7; 8]%Z ∧ received user note ∧
               2 * 1 < length (filter (received user) sample_notes)).
Proof.
  apply (reduce_notes_trims_to_maxcount_plus_one [7; 8]%Z 1 sample_notes).
  by apply (bool_decide_unpack _).
Defined.

(** X18: [reduce_notes] is idempotent on a table of notes with distinct
    ids: run again on the table it left, it deletes nothing. *)
Theorem reduce_notes_idempotent users maxcount notes notes' :
  NoDup (Note.id <$> notes) →
  reduce_notes users maxcount notes = inr notes' →
  reduce_notes users maxcount notes' = inr notes'.
Proof.
  intros Hnd Hrun.
  destruct (reduce_notes_run users maxcount notes Hnd)
    as (notes'' & Hrun' & Hsub & Hcounts & _).
  rewrite Hrun in Hrun'. simplify_eq.
  apply reduce_notes_settled.
  - eapply sublist_NoDup; [exact Hnd|]. by apply fmap_sublist.
  - intros user Huser. rewrite Hcounts. case_decide; [by right|].
    left. apply Nat.nlt_ge. tauto.
Qed.

Lemma reduce_notes_idempotent_witness :
  reduce_notes [7; 8]%Z 1 [Note.mk 3 7 9; Note.mk 5 7 7; Note.mk 6 8 9; Note.mk 4 7 9]
  = inr [Note.mk 3 7 9; Note.mk 5 7 7; Note.mk 6 8 9; Note.mk 4 7 9].
Proof.
  apply (reduce_notes_idempotent [7; 8]%Z 1 sample_notes).
  - by apply (bool_decide_unpack _).
  - reflexivity.
Defined.
